(** * dynamodb-dao-generator: the generated [migrateAllRecordsToNewSchema]

    A shallow embedding of the maintenance migration that the generator
    emits (template in [defineTypescriptDaoMaintenanceMigrateAllRecordsToNewSchemaCode])
    together with the generated [findByUnique]
    ([defineTypescriptDaoFindByUniqueCode.ts]).

    The generated code is asynchronous JavaScript: every job handed to
    [bottleneck.schedule] runs until its next [await] and is resumed when
    the awaited store call answers.  The embedding keeps that structure:
    a job is a small state machine ([Job]), one step resumes one job at
    one store call, and a schedule (the order in which the store answers)
    is a list of job indices.  Everything is executable.

    The file has four parts: the embedding; the vocabulary of the
    statements and an in-memory store to run the migration on; the
    properties, for any collaborators; the migration on concrete tables. *)

From Stdlib Require Import Ascii.
From stdpp Require Import base list strings gmap pretty.

(** ** Data *)

(** Errors a job can be rejected with. *)
Inductive Error :=
  | TransportFailure (msg : string)
  | UnexpectedCodePathError (msg : string).

Inductive result (A : Type) :=
  | Ok (a : A)
  | Err (e : Error).
Arguments Ok {A} a.
Arguments Err {A} e.

(** A stored record, as projected by the scan ([ProjectionExpression: 'p,o']):
    the serialized unique key [p] and the serialized object [o]. *)
Record Item (Payload : Type) := { p : string; o : Payload }.
Arguments p {Payload} _.
Arguments o {Payload} _.

(** A decoded domain object with the metadata the migration reads:
    its identity and its [updatedAt] timestamp (an ISO string, compared
    with JavaScript's [<], i.e. lexicographically). *)
Record Entity := { uuid : string; updatedAt : string; fields : string }.

(** DynamoDB's pagination token ([Key]). *)
Definition Key := string.

(** The answer of one [scan] request. *)
Record ScanOutput (Payload : Type) := {
  Items : option (list (Item Payload));
  LastEvaluatedKey : option Key;
}.
Arguments Items {Payload} _.
Arguments LastEvaluatedKey {Payload} _.

(** The report returned by the migration ([stats]). *)
Record Stats := {
  from : string;
  to : string;
  writtenUniqueKeyRecords : nat;   (* modified.writtenUniqueKeyRecords *)
  objects : nat;                   (* migrated.objects *)
}.

(** [new Bottleneck({ maxConcurrent })]. *)
Record Bottleneck := { maxConcurrent : nat }.

(** The module-level limiter of the generated file. *)
Definition bottleneck : Bottleneck := {| maxConcurrent := 1000 |}.

(** ** Collaborators

    What the generated migration imports and takes as given: the record
    codec ([castFromDatabaseObject], [castToDatabaseObject]), the table name
    built from the configuration, and the DynamoDB client ([scan], [query],
    [put]).  [Store] is the state of the world those calls act on; a call
    that fails answers [Err]. *)
Class Collaborators := {
  Payload : Type;
  Store : Type;
  (** [castFromDatabaseObject]: decodes the [o] attribute (all that
      [findByUnique] retrieves) *)
  castFromDatabaseObject : Payload → Entity;
  (** [castToDatabaseObject({..}).byUniqueOnNaturalKey] *)
  castToDatabaseObject : Entity → Item Payload;
  uniqueKeyTableName : string;
  (** [dynamodbClient.scan({ TableName, ProjectionExpression, ExclusiveStartKey })] *)
  scan : Store → string → option Key → result (ScanOutput Payload);
  (** [simpleDynamodbClient.query] with [KeyConditionExpression: 'p = :p'] *)
  query : Store → string → string → result (list (Item Payload));
  (** [simpleDynamodbClient.put({ tableName, item })] *)
  put : Store → string → Item Payload → result Store;
  (** the identity generator and the clock of the canonical write path *)
  newUuid : Store → string;
  now : Store → string;
}.

Section Migration.
Context `{C : Collaborators}.

(** ** [findByUnique]

    The key queried is the serialization of the unique key of [args], the
    same serialization [castToDatabaseObject] stores in [p]. *)
Definition findByUnique (s : Store) (args : Entity) : result (option Entity) :=
  match query s uniqueKeyTableName (p (castToDatabaseObject args)) with
  | Err e => Err e
  | Ok items =>
      if Nat.eqb (length items) 0 then Ok None
      else if Nat.ltb 1 (length items)
      then Err (UnexpectedCodePathError "more than one object found by unique"%string)
      else match items with
           | item :: _ => Ok (Some (castFromDatabaseObject (o item)))
           | [] => Ok None
           end
  end.

(** Modelled from the spec: [upsert], the canonical write path, generated
    by this repository from a template of its own that is not embedded
    here.  It looks the entity up by its unique key, keeps the identity
    found there ("use the original uuid rather than assign a new one") or
    assigns a new one, skips the write when nothing changed unless [force]
    is set, and persists the entity, stamped by the clock, at its derived
    unique key.  The call is one step of the store.  The writes to the
    other index tables are left out: nothing below reads them. *)
Definition upsert (s : Store) (object : Entity) (force : bool) : result Store :=
  match findByUnique s object with
  | Err e => Err e
  | Ok found =>
      let unchanged :=
        match found with
        | Some f => String.eqb (fields f) (fields object)
        | None => false
        end in
      if unchanged && negb force then Ok s
      else
        let objectWithMetadata :=
          {| uuid := match found with Some f => uuid f | None => newUuid s end;
             updatedAt := now s;
             fields := fields object |} in
        put s uniqueKeyTableName (castToDatabaseObject objectWithMetadata)
  end.

(** ** Phase 1: the scan loop

    [while (true)] is bounded by [fuel]; [None] means the fuel ran out
    before the store answered without a continuation token. *)
Fixpoint scanPages (fuel : nat) (s : Store) (sourceTableName : string)
    (lastEvaluatedKey : option Key) (pages : list (list (Item Payload)))
    : option (result (list (list (Item Payload)))) :=
  match fuel with
  | 0 => None
  | S fuel' =>
      match scan s sourceTableName lastEvaluatedKey with
      | Err e => Some (Err e)
      | Ok r =>
          let pages' := pages ++ [default [] (Items r)] in
          match LastEvaluatedKey r with
          | None => Some (Ok pages')
          | Some k => scanPages fuel' s sourceTableName (Some k) pages'
          end
      end
  end.

(** ** Jobs and the limiter *)

(** Where a job scheduled on the limiter stands. *)
Inductive Job :=
  | Queued                 (* handed to [bottleneck.schedule], not started *)
  | AwaitFindByUnique      (* suspended at [await findByUnique(object)] *)
  | AwaitPut               (* suspended at [await simpleDynamodbClient.put] *)
  | AwaitUpsert            (* suspended in [upsert] *)
  | Resolved
  | Rejected (e : Error).

Definition running (j : Job) : bool :=
  match j with
  | AwaitFindByUnique | AwaitPut | AwaitUpsert => true
  | _ => false
  end.

Definition settled (j : Job) : bool :=
  match j with
  | Resolved | Rejected _ => true
  | _ => false
  end.

Definition inFlight (js : list Job) : nat := length (List.filter running js).

(** Modelled from the spec: the admission rule of the limiter.  The limiter
    is the Bottleneck library, which is not part of this repository; its
    contract is that a scheduled job starts only while fewer than
    [maxConcurrent] jobs are in flight, and waits in the queue otherwise. *)
Definition admits (limiter : Bottleneck) (js : list Job) : bool :=
  Nat.ltb (inFlight js) (maxConcurrent limiter).

(** The state of one [Promise.all] over the scheduled jobs. [rejection] is
    what [Promise.all] rejects with: the error of the first job to fail. *)
Record Run := {
  store : Store;
  jobs : list Job;
  writtenRecords : list Entity;
  rejection : option Error;
}.

Definition startRun (s : Store) (n : nat) (written : list Entity) : Run :=
  {| store := s; jobs := replicate n Queued; writtenRecords := written;
     rejection := None |}.

Definition setJob (i : nat) (j : Job) (st : Run) : Run :=
  {| store := store st; jobs := <[i:=j]> (jobs st);
     writtenRecords := writtenRecords st; rejection := rejection st |}.

Definition setStore (s : Store) (st : Run) : Run :=
  {| store := s; jobs := jobs st;
     writtenRecords := writtenRecords st; rejection := rejection st |}.

Definition push (object : Entity) (st : Run) : Run :=
  {| store := store st; jobs := jobs st;
     writtenRecords := writtenRecords st ++ [object];
     rejection := rejection st |}.

Definition reject (i : nat) (e : Error) (st : Run) : Run :=
  {| store := store st; jobs := <[i:=Rejected e]> (jobs st);
     writtenRecords := writtenRecords st;
     rejection := match rejection st with Some e0 => Some e0 | None => Some e end |}.

(** ** Phase 2: the key reconciler *)

(** The guard of the write: nothing found by the expected key, or what was
    found is strictly older than the object. *)
Definition safeToWrite (alsoFoundByExpectedKey : option Entity) (object : Entity) : bool :=
  match alsoFoundByExpectedKey with
  | None => true
  | Some found => String.ltb (updatedAt found) (updatedAt object)
  end.

(** One resumption of job [i] of the reconcile phase. *)
Definition reconcileStep (limiter : Bottleneck) (dryRun : bool)
    (items : list (Item Payload)) (i : nat) (st : Run) : Run :=
  match jobs st !! i, items !! i with
  | Some job, Some found =>
      let object := castFromDatabaseObject (o found) in
      let item := castToDatabaseObject object in
      match job with
      | Queued =>
          if admits limiter (jobs st) then
            if String.eqb (p item) (p found) then setJob i Resolved st
            else setJob i AwaitFindByUnique st
          else st
      | AwaitFindByUnique =>
          match findByUnique (store st) object with
          | Err e => reject i e st
          | Ok alsoFoundByExpectedKey =>
              if safeToWrite alsoFoundByExpectedKey object then
                if dryRun then push object (setJob i Resolved st)
                else setJob i AwaitPut st
              else setJob i Resolved st
          end
      | AwaitPut =>
          match put (store st) uniqueKeyTableName item with
          | Err e => reject i e st
          | Ok s' => push object (setJob i Resolved (setStore s' st))
          end
      | _ => st
      end
  | _, _ => st
  end.

(** ** Phase 3: the forced re-write *)

Definition rewriteStep (limiter : Bottleneck) (objects : list Entity)
    (i : nat) (st : Run) : Run :=
  match jobs st !! i, objects !! i with
  | Some Queued, Some _ =>
      if admits limiter (jobs st) then setJob i AwaitUpsert st else st
  | Some AwaitUpsert, Some object =>
      match upsert (store st) object true with
      | Err e => reject i e st
      | Ok s' => setJob i Resolved (setStore s' st)
      end
  | _, _ => st
  end.

(** A schedule resumes jobs in the order the store answers. *)
Definition runSchedule (step : nat → Run → Run) (schedule : list nat) (st : Run) : Run :=
  fold_left (fun st i => step i st) schedule st.

Definition allSettled (st : Run) : bool := forallb settled (jobs st).

(** ** The orchestrator

    [None]: the run is not complete (fuel exhausted, or a schedule that
    leaves a job unsettled).  Otherwise the outcome the caller receives
    and the store once every scheduled job has settled. *)
Definition migrateWith (limiter : Bottleneck) (fuel : nat)
    (schedule2 schedule3 : list nat)
    (dryRun : bool) (inputSourceTableName : option string) (s : Store)
    : option (result Stats * Store) :=
  let sourceTableName := default uniqueKeyTableName inputSourceTableName in
  match scanPages fuel s sourceTableName None [] with
  | None => None
  | Some (Err e) => Some (Err e, s)
  | Some (Ok pages) =>
      let items := concat pages in
      let objects := map (fun item => castFromDatabaseObject (o item)) items in
      let st2 := runSchedule (reconcileStep limiter dryRun items) schedule2
                   (startRun s (length objects) []) in
      if allSettled st2 then
        match rejection st2 with
        | Some e => Some (Err e, store st2)
        | None =>
            let stats :=
              {| from := sourceTableName; to := uniqueKeyTableName;
                 writtenUniqueKeyRecords := length (writtenRecords st2);
                 objects := length objects |} in
            if dryRun then Some (Ok stats, store st2)
            else
              let st3 := runSchedule (rewriteStep limiter objects) schedule3
                           (startRun (store st2) (length objects) (writtenRecords st2)) in
              if allSettled st3 then
                match rejection st3 with
                | Some e => Some (Err e, store st3)
                | None => Some (Ok stats, store st3)
                end
              else None
        end
      else None
  end.

Definition migrateAllRecordsToNewSchema := migrateWith bottleneck.

End Migration.

(** ** Vocabulary of the statements *)

Section Vocabulary.
Context `{C : Collaborators}.

(** The page a scan response contributes: [result.Items ?? []]. *)
Definition pageOf (r : ScanOutput Payload) : list (Item Payload) :=
  default [] (Items r).

(** [scanTrace s t k rs]: asked from token [k], the store answers [rs], each
    request carrying the token of the previous answer, and only the last
    answer carries no token. *)
Inductive scanTrace (s : Store) (t : string)
    : option Key → list (ScanOutput Payload) → Prop :=
  | scanTrace_last k r :
      scan s t k = Ok r → LastEvaluatedKey r = None → scanTrace s t k [r]
  | scanTrace_more k r k' rs :
      scan s t k = Ok r → LastEvaluatedKey r = Some k' →
      scanTrace s t (Some k') rs → scanTrace s t k (r :: rs).

(** The object decoded from a scanned item and the key the current schema
    derives for it. *)
Definition decoded (item : Item Payload) : Entity := castFromDatabaseObject (o item).
Definition expectedKey (item : Item Payload) : string := p (castToDatabaseObject (decoded item)).

(** The stored key of a scanned item is stale. *)
Definition stale (item : Item Payload) : bool := negb (String.eqb (expectedKey item) (p item)).

(** The source table the migration reads. *)
Definition sourceOf (inputSourceTableName : option string) : string :=
  default uniqueKeyTableName inputSourceTableName.

(** The reconciler's verdict on a scanned item against a given store:
    its key is stale and the lookup by the expected key allows the write. *)
Definition wouldWrite (s : Store) (item : Item Payload) : bool :=
  stale item &&
  match findByUnique s (decoded item) with
  | Ok found => safeToWrite found (decoded item)
  | Err _ => false
  end.

(** Some job of the run was rejected. *)
Definition isRejected (j : Job) : bool :=
  match j with Rejected _ => true | _ => false end.

Definition someRejected (st : Run) : bool := existsb isRejected (jobs st).



(** ** The steps as a relation

    [reconcileStep] and [rewriteStep] are total functions (a step that is
    not enabled leaves the run as it is).  The relations below list what one
    step can do, one constructor per source branch. *)
Inductive reconciles (limiter : Bottleneck) (dryRun : bool)
    (items : list (Item Payload)) (i : nat) (st : Run) : Run → Prop :=
  | reconciles_idle :
      reconciles limiter dryRun items i st st
  | reconciles_current item :
      jobs st !! i = Some Queued → items !! i = Some item →
      inFlight (jobs st) < maxConcurrent limiter →
      stale item = false →
      reconciles limiter dryRun items i st (setJob i Resolved st)
  | reconciles_stale item :
      jobs st !! i = Some Queued → items !! i = Some item →
      inFlight (jobs st) < maxConcurrent limiter →
      stale item = true →
      reconciles limiter dryRun items i st (setJob i AwaitFindByUnique st)
  | reconciles_lookup_fails item e :
      jobs st !! i = Some AwaitFindByUnique → items !! i = Some item →
      findByUnique (store st) (decoded item) = Err e →
      reconciles limiter dryRun items i st (reject i e st)
  | reconciles_counted item found :
      jobs st !! i = Some AwaitFindByUnique → items !! i = Some item →
      findByUnique (store st) (decoded item) = Ok found →
      safeToWrite found (decoded item) = true → dryRun = true →
      reconciles limiter dryRun items i st (push (decoded item) (setJob i Resolved st))
  | reconciles_to_put item found :
      jobs st !! i = Some AwaitFindByUnique → items !! i = Some item →
      findByUnique (store st) (decoded item) = Ok found →
      safeToWrite found (decoded item) = true → dryRun = false →
      reconciles limiter dryRun items i st (setJob i AwaitPut st)
  | reconciles_skipped item found :
      jobs st !! i = Some AwaitFindByUnique → items !! i = Some item →
      findByUnique (store st) (decoded item) = Ok found →
      safeToWrite found (decoded item) = false →
      reconciles limiter dryRun items i st (setJob i Resolved st)
  | reconciles_put_fails item e :
      jobs st !! i = Some AwaitPut → items !! i = Some item →
      put (store st) uniqueKeyTableName (castToDatabaseObject (decoded item)) = Err e →
      reconciles limiter dryRun items i st (reject i e st)
  | reconciles_written item s' :
      jobs st !! i = Some AwaitPut → items !! i = Some item →
      put (store st) uniqueKeyTableName (castToDatabaseObject (decoded item)) = Ok s' →
      reconciles limiter dryRun items i st
        (push (decoded item) (setJob i Resolved (setStore s' st))).

Inductive rewrites (limiter : Bottleneck) (objs : list Entity)
    (i : nat) (st : Run) : Run → Prop :=
  | rewrites_idle :
      rewrites limiter objs i st st
  | rewrites_start object :
      jobs st !! i = Some Queued → objs !! i = Some object →
      inFlight (jobs st) < maxConcurrent limiter →
      rewrites limiter objs i st (setJob i AwaitUpsert st)
  | rewrites_fails object e :
      jobs st !! i = Some AwaitUpsert → objs !! i = Some object →
      upsert (store st) object true = Err e →
      rewrites limiter objs i st (reject i e st)
  | rewrites_written object s' :
      jobs st !! i = Some AwaitUpsert → objs !! i = Some object →
      upsert (store st) object true = Ok s' →
      rewrites limiter objs i st (setJob i Resolved (setStore s' st)).

(** How many jobs resolved on items satisfying [f]. *)
Fixpoint tally (f : Item Payload → bool) (js : list Job) (items : list (Item Payload)) : nat :=
  match js, items with
  | j :: js', item :: items' =>
      (if match j with Resolved => f item | _ => false end then 1 else 0)
      + tally f js' items'
  | _, _ => 0
  end.

(** The run of the reconcile phase over the scanned [items] under a
    schedule, and the run of the re-write phase that follows it. *)
Definition reconciled (limiter : Bottleneck) (dryRun : bool)
    (items : list (Item Payload)) (schedule : list nat) (s : Store) : Run :=
  runSchedule (reconcileStep limiter dryRun items) schedule
    (startRun s (length items) []).

Definition rewritten (limiter : Bottleneck)
    (items : list (Item Payload)) (schedule : list nat) (st2 : Run) : Run :=
  runSchedule (rewriteStep limiter (map decoded items)) schedule
    (startRun (store st2) (length items) (writtenRecords st2)).

(** The report of a run over [items] whose reconcile phase ended in [st2]. *)
Definition statsOf (inputSourceTableName : option string)
    (items : list (Item Payload)) (st2 : Run) : Stats :=
  {| from := sourceOf inputSourceTableName; to := uniqueKeyTableName;
     writtenUniqueKeyRecords := length (writtenRecords st2);
     objects := length items |}.

(** The sequential schedule: each of [n] jobs is resumed until it settles
    before the next one starts. *)
Definition sequential (n : nat) : list nat :=
  flat_map (fun i => [i; i; i]) (seq 0 n).

(** Under the sequential schedule, after [k] jobs: those have settled and
    the others are still queued. *)
Definition settledBelow (k : nat) (js : list Job) : Prop :=
  ∀ i j, i < k → js !! i = Some j → settled j = true.

Definition queuedFrom (k : nat) (js : list Job) : Prop :=
  ∀ i j, k ≤ i → js !! i = Some j → j = Queued.

(** ** Invariants of the runs and what is asked of the collaborators *)

(** [Promise.all] has rejected exactly when some job was rejected. *)
Definition rejectionTracksJobs (st : Run) : Prop :=
  rejection st = None ↔ someRejected st = false.

(** In a dry run no job ever suspends at the put, and the store stays as
    it was. *)
Definition dryInvariant (s0 : Store) (st : Run) : Prop :=
  store st = s0 ∧ ∀ i, jobs st !! i ≠ Some AwaitPut.

(** The bookkeeping of a dry run: the store is the initial one, and
    [writtenRecords] counts the resolved jobs whose verdict against the
    initial store is to write. *)
Definition dryCounts (s0 : Store) (items : list (Item Payload)) (st : Run) : Prop :=
  dryInvariant s0 st
  ∧ length (writtenRecords st) = tally (wouldWrite s0) (jobs st) items
  ∧ ∀ i item, jobs st !! i = Some AwaitFindByUnique → items !! i = Some item →
              stale item = true.

(** A put leaves what the unique index holds at the other keys alone. *)
Definition putFrame : Prop :=
  ∀ s item s' k,
    put s uniqueKeyTableName item = Ok s' → k ≠ p item →
    query s' uniqueKeyTableName k = query s uniqueKeyTableName k.

(** A put replaces what the unique index holds at the key of the item. *)
Definition putWrites : Prop :=
  ∀ s item s',
    put s uniqueKeyTableName item = Ok s' →
    query s' uniqueKeyTableName (p item) = Ok [item].

(** The derived key depends on the entity's own fields, not on its
    metadata. *)
Definition keyOfFields : Prop :=
  ∀ e u t,
    p (castToDatabaseObject {| uuid := u; updatedAt := t; fields := fields e |})
    = p (castToDatabaseObject e).

(** The codec gives the identity back. *)
Definition identityRoundTrip : Prop :=
  ∀ e, uuid (castFromDatabaseObject (o (castToDatabaseObject e))) = uuid e.

(** No two stale records derive the same key. *)
Definition staleKeysDistinct (items : list (Item Payload)) : Prop :=
  ∀ i j a b,
    items !! i = Some a → items !! j = Some b →
    stale a = true → stale b = true → expectedKey a = expectedKey b → i = j.

(** The bookkeeping of a real run under [putFrame] and
    [staleKeysDistinct]: each lookup sees what the initial store holds at
    its key. *)
Definition realCounts (s0 : Store) (items : list (Item Payload)) (st : Run) : Prop :=
  (∀ i item, items !! i = Some item → stale item = true →
             jobs st !! i = Some Queued ∨ jobs st !! i = Some AwaitFindByUnique →
             query (store st) uniqueKeyTableName (expectedKey item)
             = query s0 uniqueKeyTableName (expectedKey item))
  ∧ (∀ i item, jobs st !! i = Some AwaitPut → items !! i = Some item →
               wouldWrite s0 item = true)
  ∧ length (writtenRecords st) = tally (wouldWrite s0) (jobs st) items
  ∧ ∀ i item, jobs st !! i = Some AwaitFindByUnique → items !! i = Some item →
              stale item = true.

(** Every record the unique index holds at [k] carries the identity [u]. *)
Definition carries (s : Store) (k u : string) : Prop :=
  ∀ records r,
    query s uniqueKeyTableName k = Ok records → r ∈ records →
    uuid (castFromDatabaseObject (o r)) = u.

(** The unique index holds a record at [k]; it holds exactly one. *)
Definition held (s : Store) (k : string) : Prop :=
  ∃ r records, query s uniqueKeyTableName k = Ok (r :: records).

Definition heldOnce (s : Store) (k : string) : Prop :=
  ∃ r, query s uniqueKeyTableName k = Ok [r].

(** In store [s] exactly one unique-index record is addressed by the key
    the current schema derives for the scanned [item], and it carries the
    identity of the entity decoded from [item]. *)
Definition identityKept (s : Store) (item : Item Payload) : Prop :=
  ∃ r, query s uniqueKeyTableName (expectedKey item) = Ok [r]
       ∧ uuid (castFromDatabaseObject (o r)) = uuid (decoded item).

(** The reconcile phase and the re-write phase, seen from the record at
    index [n]. *)
Definition identityReconciled (items : list (Item Payload)) (n : nat)
    (item : Item Payload) (st : Run) : Prop :=
  carries (store st) (expectedKey item) (uuid (decoded item))
  ∧ (stale item = false → held (store st) (expectedKey item))
  ∧ (jobs st !! n = Some Resolved → held (store st) (expectedKey item)).

Definition identityRewritten (n : nat) (item : Item Payload) (st : Run) : Prop :=
  carries (store st) (expectedKey item) (uuid (decoded item))
  ∧ held (store st) (expectedKey item)
  ∧ (jobs st !! n = Some Resolved → heldOnce (store st) (expectedKey item)).

(** ** A second run *)







(** ** Further vocabulary: the scan, and what the reconcile phase leaves *)

(** [scanFails s t k n e]: asked from token [k], the store answers [n]
    pages, each with a token, and fails the next request with [e]. *)
Inductive scanFails (s : Store) (t : string)
    : option Key → nat → Error → Prop :=
  | scanFails_now k e :
      scan s t k = Err e → scanFails s t k 0 e
  | scanFails_later k r k' n e :
      scan s t k = Ok r → LastEvaluatedKey r = Some k' →
      scanFails s t (Some k') n e → scanFails s t k (S n) e.

(** Tokens that keep the scan going: asked from a token in [P], the store
    answers a page with a token in [P] again. *)
Definition tokensGoOn (s : Store) (t : string) (P : option Key → Prop) : Prop :=
  ∀ k, P k →
    ∃ r k', scan s t k = Ok r ∧ LastEvaluatedKey r = Some k' ∧ P (Some k').

(** A job suspended at a store call of the reconcile phase; only jobs of
    stale records are. *)
Definition awaitsStore (j : Job) : Prop := j = AwaitFindByUnique ∨ j = AwaitPut.

Definition awaitsStale (items : list (Item Payload)) (st : Run) : Prop :=
  ∀ i j item, jobs st !! i = Some j → awaitsStore j → items !! i = Some item →
              stale item = true.

(** A reconcile phase in which nothing happened but jobs resolving at
    once. *)
Definition quiet (s0 : Store) (st : Run) : Prop :=
  store st = s0 ∧ writtenRecords st = [] ∧ rejection st = None
  ∧ ∀ i j, jobs st !! i = Some j → j = Queued ∨ j = Resolved.

(** Only jobs of stale records reach the store, and what was written are
    entities decoded from stale scanned records, at most one per resolved
    job. *)
Definition writtenStale (items : list (Item Payload)) (st : Run) : Prop :=
  awaitsStale items st
  ∧ length (writtenRecords st) ≤ tally stale (jobs st) items
  ∧ ∀ e, e ∈ writtenRecords st →
         ∃ item, item ∈ items ∧ stale item = true ∧ e = decoded item.

(** The reconcile phase has not touched what the index holds at [k]. *)
Definition untouched (s0 : Store) (items : list (Item Payload)) (k : string)
    (st : Run) : Prop :=
  awaitsStale items st
  ∧ query (store st) uniqueKeyTableName k = query s0 uniqueKeyTableName k.

(** The reconcile phase never empties a key of the index. *)
Definition stillHeld (s0 : Store) (st : Run) : Prop :=
  ∀ k, held s0 k → held (store st) k.

(** The report of a successful run from [s] over the scanned [items], when
    the written count does not depend on the schedule. *)
Definition expectedStats (src : option string) (s : Store)
    (items : list (Item Payload)) : Stats :=
  {| from := sourceOf src; to := uniqueKeyTableName;
     writtenUniqueKeyRecords := length (List.filter (wouldWrite s) items);
     objects := length items |}.

(** Once the job of the stale record at index [n] has resolved, the index
    holds a record at the expected key of that record. *)
Definition heldReconciled (n : nat) (item : Item Payload) (st : Run) : Prop :=
  jobs st !! n = Some Resolved → held (store st) (expectedKey item).


End Vocabulary.

(** ** An in-memory store

    A reference implementation of the collaborators, used to run the
    migration on concrete tables.  Tables are lists of items in scan order;
    a scan answers [pageSize] items at a time and omits [Items] on an empty
    page; the codec stores the entity itself and derives the key from the
    natural part of the entity's fields under the current schema tag. *)
Module Mem.

Record MemStore := {
  tables : gmap string (list (Item Entity));
  pageSize : nat;
  clock : string;
  nextUuid : string;
}.

Definition table (s : MemStore) (t : string) : list (Item Entity) :=
  default [] (tables s !! t).

Fixpoint dropThrough (k : string) (l : list (Item Entity)) : list (Item Entity) :=
  match l with
  | [] => []
  | x :: l' => if String.eqb (p x) k then l' else dropThrough k l'
  end.

Definition memScan (s : MemStore) (t : string) (k : option Key)
    : result (ScanOutput Entity) :=
  let rest := match k with None => table s t | Some k => dropThrough k (table s t) end in
  let page := take (pageSize s) rest in
  Ok {| Items := match page with [] => None | _ => Some page end;
        LastEvaluatedKey :=
          if Nat.leb (length rest) (pageSize s) then None else p <$> last page |}.

Definition memQuery (s : MemStore) (t : string) (k : string)
    : result (list (Item Entity)) :=
  Ok (List.filter (fun it => String.eqb (p it) k) (table s t)).

Definition memPut (s : MemStore) (t : string) (it : Item Entity) : result MemStore :=
  Ok {| tables :=
          <[t := List.filter (fun x => negb (String.eqb (p x) (p it))) (table s t) ++ [it]]>
            (tables s);
        pageSize := pageSize s; clock := clock s; nextUuid := nextUuid s |}.

(** The natural key of an entity: its fields up to the first slash. *)
Fixpoint natural (s : string) : string :=
  match s with
  | EmptyString => EmptyString
  | String c s' => if Ascii.eqb c "/"%char then EmptyString else String c (natural s')
  end.

Definition schemaKey (e : Entity) : string := ("v2#" +:+ natural (fields e))%string.

Definition memory : Collaborators := {|
  Payload := Entity;
  Store := MemStore;
  castFromDatabaseObject := fun e => e;
  castToDatabaseObject := fun e => {| p := schemaKey e; o := e |};
  uniqueKeyTableName := "thing-by-unique"%string;
  scan := memScan;
  query := memQuery;
  put := memPut;
  newUuid := nextUuid;
  now := clock;
|}.

Definition mkStore (unique : list (Item Entity)) (size : nat) : MemStore :=
  {| tables := {[ "thing-by-unique"%string := unique ]};
     pageSize := size; clock := "2024-06-01"%string; nextUuid := "uuid-new"%string |}.

Definition uniqueTable (s : MemStore) : list (Item Entity) :=
  table s "thing-by-unique"%string.


(** *** Tables to run the migration on *)

Definition entity (u t f : string) : Entity :=
  {| uuid := u; updatedAt := t; fields := f |}.

Definition stored (key : string) (e : Entity) : Item Entity :=
  {| p := key; o := e |}.

(** Records of a turtle under two outdated key formats and under the
    current one; the record under the current key was registered anew, with
    another identity. *)
Definition turtleOld : Item Entity :=
  stored "v1#turtle" (entity "u1" "2024-01-05" "turtle").
Definition turtleOlder : Item Entity :=
  stored "v0#turtle" (entity "u1" "2024-01-03" "turtle").
Definition turtleNew : Item Entity :=
  stored "v2#turtle" (entity "u2" "2024-03-01" "turtle").
Definition turtleTwin : Item Entity :=
  stored "v2#turtle" (entity "u3" "2024-03-02" "turtle").
Definition turtleEarly : Item Entity :=
  stored "v2#turtle" (entity "u1" "2023-12-31" "turtle").
Definition crab : Item Entity :=
  stored "v1#crab" (entity "u7" "2024-02-02" "crab").

Definition oneStale : MemStore := mkStore [turtleOld] 10.
Definition twoStale : MemStore := mkStore [turtleOld; turtleOlder] 10.
Definition staleOverEarlier : MemStore := mkStore [turtleOld; turtleEarly] 10.
Definition doubleRegistered : MemStore := mkStore [turtleOld; turtleNew] 10.


(** A table that breaks uniqueness: two records under one key. *)
Definition ambiguous : MemStore :=
  mkStore [turtleOld; crab; turtleNew; turtleTwin] 10.

Definition noRecords : MemStore := mkStore [] 10.

(** Forty current records, scanned fifteen at a time. *)
Definition catalogue : list (Item Entity) :=
  map (fun n => let e := entity ("u" +:+ pretty n) "2024-01-01" (pretty n) in
                stored (schemaKey e) e)
      (seq 0 40).

Definition paged : MemStore := mkStore catalogue 15.

Definition pagedAnswers : list (ScanOutput Entity) :=
  [ {| Items := Some (take 15 catalogue); LastEvaluatedKey := Some "v2#14"%string |};
    {| Items := Some (take 15 (drop 15 catalogue)); LastEvaluatedKey := Some "v2#29"%string |};
    {| Items := Some (drop 30 catalogue); LastEvaluatedKey := None |} ].

(** Ten stale records and a limiter with room for two jobs. *)
Definition tenStale : list (Item Entity) :=
  map (fun n => stored ("v1#" +:+ pretty n) (entity ("u" +:+ pretty n) "2024-01-01" (pretty n)))
      (seq 0 10).

Definition narrow : Bottleneck := {| maxConcurrent := 2 |}.

(** The run of the reconcile phase over the unique-index table of [s]
    once its first job has been started. *)
Definition afterStart (s : MemStore) : Run (C:=memory) :=
  reconciled (C:=memory) bottleneck false (uniqueTable s) [0] s.



Definition ambiguity : Error :=
  UnexpectedCodePathError "more than one object found by unique".

(** The store a real run from the unique-index table of [s] ends in. *)
Definition migrated (s : MemStore) (schedule2 schedule3 : list nat) : MemStore :=
  match migrateAllRecordsToNewSchema (C:=memory) 1 schedule2 schedule3 false None s with
  | Some (_, s') => s'
  | None => s
  end.


(** The report of a run over the unique-index table. *)
Definition report (written n : nat) : Stats :=
  {| from := "thing-by-unique"; to := "thing-by-unique";
     writtenUniqueKeyRecords := written; objects := n |}.

(** *** Stores that fail or never finish the scan *)

(** The in-memory store behind a client that is throttled on every
    continuation request. *)
Definition flaky : Collaborators := {|
  Payload := Entity;
  Store := MemStore;
  castFromDatabaseObject := fun e => e;
  castToDatabaseObject := fun e => {| p := schemaKey e; o := e |};
  uniqueKeyTableName := "thing-by-unique"%string;
  scan := fun s t k =>
            match k with
            | Some _ => Err (TransportFailure "throttled")
            | None => memScan s t k
            end;
  query := memQuery;
  put := memPut;
  newUuid := nextUuid;
  now := clock;
|}.

(** A client that answers every scan request with an empty page and the
    same token. *)
Definition looping : Collaborators := {|
  Payload := Entity;
  Store := MemStore;
  castFromDatabaseObject := fun e => e;
  castToDatabaseObject := fun e => {| p := schemaKey e; o := e |};
  uniqueKeyTableName := "thing-by-unique"%string;
  scan := fun _ _ _ => Ok {| Items := None; LastEvaluatedKey := Some "again"%string |};
  query := memQuery;
  put := memPut;
  newUuid := nextUuid;
  now := clock;
|}.

(** Two records under the current key (the index is ambiguous there), and
    two stale records of distinct expected keys. *)
Definition twoCurrent : MemStore := mkStore [turtleNew; turtleTwin] 10.
Definition turtleAndCrab : MemStore := mkStore [turtleOld; crab] 10.

End Mem.

(** * Properties *)

Section Properties.
Context `{C : Collaborators}.

Implicit Types (s : Store) (st : Run) (item : Item Payload) (object : Entity).

(** ** [findByUnique] *)

Lemma findByUnique_none s args :
  query s uniqueKeyTableName (p (castToDatabaseObject args)) = Ok [] →
  findByUnique s args = Ok None.
Proof. intros H. unfold findByUnique. by rewrite H. Qed.


Lemma findByUnique_many s args items :
  query s uniqueKeyTableName (p (castToDatabaseObject args)) = Ok items →
  1 < length items →
  findByUnique s args
  = Err (UnexpectedCodePathError "more than one object found by unique").
Proof.
  intros H Hlen. unfold findByUnique. rewrite H.
  destruct items as [|a [|b l]]; simpl in *; try lia. done.
Qed.

Lemma findByUnique_Ok_inv s args found :
  findByUnique s args = Ok found →
  match found with
  | None => query s uniqueKeyTableName (p (castToDatabaseObject args)) = Ok []
  | Some f => ∃ item,
      query s uniqueKeyTableName (p (castToDatabaseObject args)) = Ok [item]
      ∧ f = castFromDatabaseObject (o item)
  end.
Proof.
  unfold findByUnique.
  destruct (query _ _ _) as [[|a [|b l]]|e]; simpl; intros H; simplify_eq; eauto.
Qed.

(** ** The scan loop *)

Lemma scanPages_trace s t k rs :
  scanTrace s t k rs →
  ∀ fuel pages, length rs ≤ fuel →
    scanPages fuel s t k pages = Some (Ok (pages ++ map pageOf rs)).
Proof.
  induction 1 as [k r Hr Hk|k r k' rs Hr Hk _ IH]; intros [|fuel] pages Hf;
    simpl in *; try lia; rewrite Hr, Hk.
  - done.
  - rewrite IH by lia. by rewrite <- app_assoc.
Qed.

Lemma scanPages_inv fuel : ∀ s t k pages out,
  scanPages fuel s t k pages = Some (Ok out) →
  ∃ rs, scanTrace s t k rs ∧ length rs ≤ fuel ∧ out = pages ++ map pageOf rs.
Proof.
  induction fuel as [|fuel IH]; intros s t k pages out; simpl; [done|].
  destruct (scan s t k) as [r|e] eqn:Hr; [|done].
  destruct (LastEvaluatedKey r) as [k'|] eqn:Hk.
  - intros H. apply IH in H as (rs & Htr & Hlen & ->).
    exists (r :: rs). split; [by eapply scanTrace_more|].
    split; [simpl; lia|]. by rewrite <- app_assoc.
  - intros [= <-]. exists [r]. split; [by apply scanTrace_last|].
    split; [simpl; lia|done].
Qed.

Lemma scanTrace_functional s t k rs1 :
  scanTrace s t k rs1 → ∀ rs2, scanTrace s t k rs2 → rs1 = rs2.
Proof.
  induction 1 as [k r Hr Hk|k r k' rs Hr Hk _ IH]; intros rs2 H2;
    inversion H2 as [? r0 Hr0 Hk0|? r0 k0 rs0 Hr0 Hk0 Htr0]; subst;
    rewrite Hr in Hr0; injection Hr0 as <-; try congruence.
  rewrite Hk in Hk0. injection Hk0 as <-. f_equal. by apply IH.
Qed.

Lemma length_concat_pages (pages : list (list (Item Payload))) :
  length (concat pages) = sum_list (map length pages).
Proof. induction pages as [|x l IH]; simpl; [done|]. by rewrite length_app, IH. Qed.

(** ** Schedules *)

Lemma runSchedule_app step sch1 sch2 st :
  runSchedule step (sch1 ++ sch2) st = runSchedule step sch2 (runSchedule step sch1 st).
Proof. unfold runSchedule. by rewrite fold_left_app. Qed.

Lemma runSchedule_invariant (P : Run → Prop) step :
  (∀ i st, P st → P (step i st)) →
  ∀ schedule st, P st → P (runSchedule step schedule st).
Proof.
  intros Hstep schedule. induction schedule as [|i l IH]; intros st H; simpl; [done|].
  apply IH, Hstep, H.
Qed.

Lemma reconcileStep_no_jobs limiter dryRun items i st :
  jobs st = [] → reconcileStep limiter dryRun items i st = st.
Proof. intros H. unfold reconcileStep. by rewrite H. Qed.

Lemma rewriteStep_no_jobs limiter objs i st :
  jobs st = [] → rewriteStep limiter objs i st = st.
Proof. intros H. unfold rewriteStep. by rewrite H. Qed.

(** ** One step *)

Lemma reconcileStep_spec limiter dryRun items i st :
  reconciles limiter dryRun items i st (reconcileStep limiter dryRun items i st).
Proof.
  unfold reconcileStep.
  destruct (jobs st !! i) as [job|] eqn:Hj; [|constructor].
  destruct (items !! i) as [item|] eqn:Hi; [|constructor].
  destruct job; try constructor.
  - unfold admits.
    destruct (Nat.ltb_spec (inFlight (jobs st)) (maxConcurrent limiter)); [|constructor].
    destruct (String.eqb _ _) eqn:Hk.
    + eapply reconciles_current; eauto. unfold stale, expectedKey, decoded. by rewrite Hk.
    + eapply reconciles_stale; eauto. unfold stale, expectedKey, decoded. by rewrite Hk.
  - destruct (findByUnique _ _) as [found|e] eqn:Hf.
    + destruct (safeToWrite _ _) eqn:Hs.
      * destruct dryRun.
        -- eapply reconciles_counted; eauto.
        -- eapply reconciles_to_put; eauto.
      * eapply reconciles_skipped; eauto.
    + eapply reconciles_lookup_fails; eauto.
  - destruct (put _ _ _) as [s'|e] eqn:Hp.
    + eapply reconciles_written; eauto.
    + eapply reconciles_put_fails; eauto.
Qed.

Lemma rewriteStep_spec limiter objs i st :
  rewrites limiter objs i st (rewriteStep limiter objs i st).
Proof.
  unfold rewriteStep.
  destruct (jobs st !! i) as [job|] eqn:Hj; [|constructor].
  destruct (objs !! i) as [object|] eqn:Hi; [|destruct job; constructor].
  destruct job; try constructor.
  - unfold admits.
    destruct (Nat.ltb_spec (inFlight (jobs st)) (maxConcurrent limiter)); [|constructor].
    eapply rewrites_start; eauto.
  - destruct (upsert _ _ _) as [s'|e] eqn:Hu.
    + eapply rewrites_written; eauto.
    + eapply rewrites_fails; eauto.
Qed.

(** An invariant of every step is an invariant of every schedule. *)
Lemma reconcile_invariant (P : Run → Prop) limiter dryRun items :
  (∀ i st st', P st → reconciles limiter dryRun items i st st' → P st') →
  ∀ schedule st, P st →
    P (runSchedule (reconcileStep limiter dryRun items) schedule st).
Proof.
  intros H. apply runSchedule_invariant. intros i st HP.
  eapply H; [done|apply reconcileStep_spec].
Qed.

Lemma rewrite_invariant (P : Run → Prop) limiter objs :
  (∀ i st st', P st → rewrites limiter objs i st st' → P st') →
  ∀ schedule st, P st →
    P (runSchedule (rewriteStep limiter objs) schedule st).
Proof.
  intros H. apply runSchedule_invariant. intros i st HP.
  eapply H; [done|apply rewriteStep_spec].
Qed.

(** ** The limiter *)

Lemma inFlight_insert (js : list Job) i j0 j :
  js !! i = Some j0 →
  inFlight (<[i:=j]> js) + (if running j0 then 1 else 0)
  = inFlight js + (if running j then 1 else 0).
Proof.
  unfold inFlight. revert i. induction js as [|a js IH]; intros [|i] H; simpl in *;
    simplify_eq.
  - destruct (running j0), (running j); simpl; lia.
  - specialize (IH _ H). destruct (running a); simpl; lia.
Qed.

Lemma inFlight_replicate_Queued n : inFlight (replicate n Queued) = 0.
Proof. unfold inFlight. induction n; simpl; done. Qed.

Lemma reconciles_inFlight limiter dryRun items i st st' :
  reconciles limiter dryRun items i st st' →
  inFlight (jobs st) ≤ maxConcurrent limiter →
  inFlight (jobs st') ≤ maxConcurrent limiter.
Proof.
  destruct 1 as [|item Hj|item Hj|item e Hj|item found Hj|item found Hj
                 |item found Hj|item e Hj|item s' Hj]; simpl; intros Hle; try done;
    pose proof (inFlight_insert (jobs st) i _ Resolved Hj) as Ires;
    pose proof (inFlight_insert (jobs st) i _ AwaitFindByUnique Hj) as Iawait;
    pose proof (inFlight_insert (jobs st) i _ AwaitPut Hj) as Iput;
    try pose proof (inFlight_insert (jobs st) i _ (Rejected e) Hj) as Irej;
    simpl in *; lia.
Qed.

Lemma rewrites_inFlight limiter objs i st st' :
  rewrites limiter objs i st st' →
  inFlight (jobs st) ≤ maxConcurrent limiter →
  inFlight (jobs st') ≤ maxConcurrent limiter.
Proof.
  destruct 1 as [|object Hj|object e Hj|object s' Hj]; simpl; intros Hle; try done;
    pose proof (inFlight_insert (jobs st) i _ Resolved Hj) as Ires;
    pose proof (inFlight_insert (jobs st) i _ AwaitUpsert Hj) as Iawait;
    try pose proof (inFlight_insert (jobs st) i _ (Rejected e) Hj) as Irej;
    simpl in *; lia.
Qed.

(** ** Runs *)

(** What the orchestrator returns, phase by phase. *)
Lemma migrateWith_unfold limiter fuel schedule2 schedule3 dryRun src s :
  migrateWith limiter fuel schedule2 schedule3 dryRun src s =
  match scanPages fuel s (sourceOf src) None [] with
  | None => None
  | Some (Err e) => Some (Err e, s)
  | Some (Ok pages) =>
      let items := concat pages in
      let st2 := reconciled limiter dryRun items schedule2 s in
      if allSettled st2 then
        match rejection st2 with
        | Some e => Some (Err e, store st2)
        | None =>
            if dryRun then Some (Ok (statsOf src items st2), store st2)
            else
              let st3 := rewritten limiter items schedule3 st2 in
              if allSettled st3 then
                match rejection st3 with
                | Some e => Some (Err e, store st3)
                | None => Some (Ok (statsOf src items st2), store st3)
                end
              else None
        end
      else None
  end.
Proof.
  unfold migrateWith, reconciled, rewritten, statsOf, sourceOf.
  destruct (scanPages _ _ _ _ _) as [[pages|e]|]; try done.
  cbv zeta. rewrite !length_map. done.
Qed.

(** A successful migration: the scan answered, both phases settled without
    a rejection, and the report is [statsOf]. *)
Lemma migrateWith_Ok limiter fuel schedule2 schedule3 dryRun src s stats s' :
  migrateWith limiter fuel schedule2 schedule3 dryRun src s = Some (Ok stats, s') →
  ∃ pages,
    scanPages fuel s (sourceOf src) None [] = Some (Ok pages)
    ∧ let items := concat pages in
      let st2 := reconciled limiter dryRun items schedule2 s in
      allSettled st2 = true ∧ rejection st2 = None
      ∧ stats = statsOf src items st2
      ∧ if dryRun then s' = store st2
        else let st3 := rewritten limiter items schedule3 st2 in
             allSettled st3 = true ∧ rejection st3 = None ∧ s' = store st3.
Proof.
  rewrite migrateWith_unfold.
  destruct (scanPages _ _ _ _ _) as [[pages|e]|]; try done.
  cbv zeta. intros H. exists pages. split; [done|].
  destruct (allSettled (reconciled _ _ _ _ _)); [|done].
  destruct (rejection (reconciled _ _ _ _ _)); [done|].
  destruct dryRun.
  - by simplify_eq.
  - destruct (allSettled (rewritten _ _ _ _)); [|done].
    destruct (rejection (rewritten _ _ _ _)); [done|]. by simplify_eq.
Qed.

(** The jobs of a run stay as many as were scheduled. *)
Lemma reconciles_length limiter dryRun items i st st' :
  reconciles limiter dryRun items i st st' → length (jobs st') = length (jobs st).
Proof. destruct 1; simpl; rewrite ?length_insert; done. Qed.

Lemma rewrites_length limiter objs i st st' :
  rewrites limiter objs i st st' → length (jobs st') = length (jobs st).
Proof. destruct 1; simpl; rewrite ?length_insert; done. Qed.

(** Once [Promise.all] has rejected it stays rejected, with the first error. *)
Lemma reconciles_rejection limiter dryRun items i st st' e :
  reconciles limiter dryRun items i st st' →
  rejection st = Some e → rejection st' = Some e.
Proof. destruct 1; simpl; intros ->; done. Qed.

Lemma rewrites_rejection limiter objs i st st' e :
  rewrites limiter objs i st st' →
  rejection st = Some e → rejection st' = Some e.
Proof. destruct 1; simpl; intros ->; done. Qed.

(** A rejected job stays rejected. *)
Lemma reconciles_rejected limiter dryRun items i st st' k e :
  reconciles limiter dryRun items i st st' →
  jobs st !! k = Some (Rejected e) → jobs st' !! k = Some (Rejected e).
Proof.
  destruct 1; simpl; intros Hk; try done;
    (destruct (decide (i = k)) as [->|]; [congruence|by rewrite list_lookup_insert_ne]).
Qed.

Lemma rewrites_rejected limiter objs i st st' k e :
  rewrites limiter objs i st st' →
  jobs st !! k = Some (Rejected e) → jobs st' !! k = Some (Rejected e).
Proof.
  destruct 1; simpl; intros Hk; try done;
    (destruct (decide (i = k)) as [->|]; [congruence|by rewrite list_lookup_insert_ne]).
Qed.

Lemma existsb_isRejected_insert (js : list Job) i j0 j :
  js !! i = Some j0 → isRejected j0 = false →
  existsb isRejected (<[i:=j]> js) = existsb isRejected js || isRejected j.
Proof.
  revert i. induction js as [|a js IH]; intros [|i] H H0; simpl in *; simplify_eq.
  - rewrite H0. simpl. apply orb_comm.
  - rewrite (IH _ H H0). by rewrite orb_assoc.
Qed.

Lemma someRejected_setJob st i j0 j :
  jobs st !! i = Some j0 → isRejected j0 = false →
  someRejected (setJob i j st) = someRejected st || isRejected j.
Proof. intros. unfold someRejected. simpl. by eapply existsb_isRejected_insert. Qed.

Lemma reconciles_tracks limiter dryRun items i st st' :
  reconciles limiter dryRun items i st st' →
  rejectionTracksJobs st → rejectionTracksJobs st'.
Proof.
  unfold rejectionTracksJobs, someRejected.
  destruct 1 as [|item Hj|item Hj|item e Hj|item found Hj|item found Hj
                 |item found Hj|item e Hj|item s' Hj]; simpl; try done;
    rewrite (existsb_isRejected_insert _ _ _ _ Hj) by done; simpl;
    rewrite ?orb_false_r, ?orb_true_r; try done;
    intros _; split; try done; destruct (rejection st); done.
Qed.

Lemma rewrites_tracks limiter objs i st st' :
  rewrites limiter objs i st st' →
  rejectionTracksJobs st → rejectionTracksJobs st'.
Proof.
  unfold rejectionTracksJobs, someRejected.
  destruct 1 as [|object Hj|object e Hj|object s' Hj]; simpl; try done;
    rewrite (existsb_isRejected_insert _ _ _ _ Hj) by done; simpl;
    rewrite ?orb_false_r, ?orb_true_r; try done;
    intros _; split; try done; destruct (rejection st); done.
Qed.

Lemma startRun_tracks s n written : rejectionTracksJobs (startRun s n written).
Proof.
  unfold rejectionTracksJobs, someRejected. simpl. split; [|done]. intros _.
  induction n; simpl; done.
Qed.

Lemma reconciled_tracks limiter dryRun items schedule s :
  rejectionTracksJobs (reconciled limiter dryRun items schedule s).
Proof.
  apply (reconcile_invariant rejectionTracksJobs); [|apply startRun_tracks].
  intros i st st' H Hs. by eapply reconciles_tracks.
Qed.

Lemma rewritten_tracks limiter items schedule st2 :
  rejectionTracksJobs (rewritten limiter items schedule st2).
Proof.
  apply (rewrite_invariant rejectionTracksJobs); [|apply startRun_tracks].
  intros i st st' H Hs. by eapply rewrites_tracks.
Qed.

(** ** Dry runs *)

Lemma lookup_insert_not (js : list Job) i j k bad :
  j ≠ bad → js !! k ≠ Some bad → <[i:=j]> js !! k ≠ Some bad.
Proof.
  intros Hj Hk. destruct (decide (i = k)) as [->|Hne].
  - destruct (decide (k < length js)).
    + rewrite list_lookup_insert_eq by done. congruence.
    + rewrite list_insert_ge by lia. done.
  - by rewrite list_lookup_insert_ne.
Qed.

Lemma reconciles_dry limiter items i s0 st st' :
  reconciles limiter true items i st st' → dryInvariant s0 st → dryInvariant s0 st'.
Proof.
  intros Hstep [Hs Hno].
  destruct Hstep; simpl; try done;
    try (split; [done|]; intros k; simpl; by apply lookup_insert_not);
    exfalso; by eapply Hno.
Qed.

Lemma reconciled_dry limiter items schedule s :
  dryInvariant s (reconciled limiter true items schedule s).
Proof.
  apply (reconcile_invariant (dryInvariant s)).
  - intros i st st' H Hs. by eapply reconciles_dry.
  - split; [done|]. intros i. simpl. intros H%lookup_replicate. by destruct H.
Qed.

(** ** Phase 1 and the report *)

(** C5: The scan phase issues its requests each with the continuation token
    of the previous response, stops at the first response without a token
    (after exactly as many requests as the store answers with a token, plus
    one), and yields the returned pages in order; the decoded entities and
    the report's [migrated.objects] both number the records of all pages
    together. *)
Theorem scan_pagination_complete s src rs :
  scanTrace s (sourceOf src) None rs →
  (∀ fuel, length rs ≤ fuel →
     scanPages fuel s (sourceOf src) None [] = Some (Ok (map pageOf rs)))
  ∧ (∀ fuel pages,
       scanPages fuel s (sourceOf src) None [] = Some (Ok pages) →
       length rs ≤ fuel ∧ pages = map pageOf rs)
  ∧ length (map decoded (concat (map pageOf rs)))
    = sum_list (map (fun r => length (pageOf r)) rs)
  ∧ (∀ limiter fuel schedule2 schedule3 dryRun stats s',
       migrateWith limiter fuel schedule2 schedule3 dryRun src s = Some (Ok stats, s') →
       objects stats = sum_list (map (fun r => length (pageOf r)) rs)).
Proof.
  intros Htrace.
  assert (Hinv : ∀ fuel pages,
             scanPages fuel s (sourceOf src) None [] = Some (Ok pages) →
             length rs ≤ fuel ∧ pages = map pageOf rs).
  { intros fuel pages H. apply scanPages_inv in H as (rs' & Htr' & Hlen & ->).
    by rewrite (scanTrace_functional _ _ _ _ Htrace _ Htr'). }
  assert (Hsum : ∀ l : list (ScanOutput Payload),
             length (concat (map pageOf l))
             = sum_list (map (fun r => length (pageOf r)) l)).
  { intros l. rewrite length_concat_pages. by rewrite map_map. }
  split; [|split; [done|split]].
  - intros fuel Hf. by rewrite (scanPages_trace _ _ _ _ Htrace fuel []).
  - by rewrite length_map.
  - intros limiter fuel schedule2 schedule3 dryRun stats s' H.
    apply migrateWith_Ok in H as (pages & Hscan & _ & _ & -> & _).
    apply Hinv in Hscan as [_ ->]. simpl. apply Hsum.
Qed.

(** C9: The report's [migrated.objects] is the number of scanned records,
    which is the number of decoded entities, whatever [dryRun] is and
    whatever was written; a dry run reports it although the store is left
    as it was. *)
Theorem migrated_objects_counts_scanned limiter fuel schedule2 schedule3
    dryRun src s stats s' :
  migrateWith limiter fuel schedule2 schedule3 dryRun src s = Some (Ok stats, s') →
  ∃ pages,
    scanPages fuel s (sourceOf src) None [] = Some (Ok pages)
    ∧ objects stats = length (concat pages)
    ∧ objects stats = length (map decoded (concat pages))
    ∧ (dryRun = true → s' = s).
Proof.
  intros H. apply migrateWith_Ok in H as (pages & Hscan & _ & _ & -> & Hs').
  exists pages. split; [done|]. split; [done|]. split; [by rewrite length_map|].
  intros ->. subst s'. apply reconciled_dry.
Qed.

(** C10: A scan response without a record list counts as an empty page:
    the loop appends the empty page and goes on with the continuation
    token, if any; and a scan that yields no record at all ends in the
    report with both counts 0 and the store untouched, whatever the
    schedules and [dryRun]. *)
Theorem absent_items_is_empty_page :
  (∀ fuel s t k pages r,
     scan s t k = Ok r → Items r = None →
     scanPages (S fuel) s t k pages
     = match LastEvaluatedKey r with
       | Some k' => scanPages fuel s t (Some k') (pages ++ [[]])
       | None => Some (Ok (pages ++ [[]]))
       end)
  ∧ (∀ limiter fuel schedule2 schedule3 dryRun src s pages,
       scanPages fuel s (sourceOf src) None [] = Some (Ok pages) →
       concat pages = [] →
       migrateWith limiter fuel schedule2 schedule3 dryRun src s
       = Some (Ok {| from := sourceOf src; to := uniqueKeyTableName;
                     writtenUniqueKeyRecords := 0; objects := 0 |}, s)).
Proof.
  split.
  - intros fuel s t k pages r Hr Hitems. simpl. rewrite Hr, Hitems. simpl.
    by destruct (LastEvaluatedKey r).
  - intros limiter fuel schedule2 schedule3 dryRun src s pages Hscan Hnil.
    rewrite migrateWith_unfold, Hscan. cbv zeta. rewrite Hnil.
    assert (H2 : reconciled limiter dryRun [] schedule2 s = startRun s 0 []).
    { unfold reconciled.
      apply (runSchedule_invariant (fun st => st = startRun s 0 [])); [|done].
      intros i st ->. by apply reconcileStep_no_jobs. }
    rewrite H2. simpl.
    assert (H3 : rewritten limiter [] schedule3 (startRun s 0 []) = startRun s 0 []).
    { unfold rewritten.
      apply (runSchedule_invariant (fun st => st = startRun s 0 [])); [|done].
      intros i st ->. by apply rewriteStep_no_jobs. }
    rewrite H3. simpl. by destruct dryRun.
Qed.

(** ** The concurrency limiter *)

(** C8: Every job of the reconcile phase and of the re-write phase is
    admitted by the limiter, and at no moment of either phase, under any
    schedule (every prefix of a schedule is one), are more than
    [maxConcurrent] jobs in flight.  The generated file fixes the ceiling
    of its limiter at 1000. *)
Theorem limiter_bounds_jobs_in_flight limiter dryRun items schedule2 schedule3 s st2 :
  inFlight (jobs (reconciled limiter dryRun items schedule2 s)) ≤ maxConcurrent limiter
  ∧ inFlight (jobs (rewritten limiter items schedule3 st2)) ≤ maxConcurrent limiter
  ∧ maxConcurrent bottleneck = 1000.
Proof.
  split; [|split; [|done]].
  - apply (reconcile_invariant
             (fun st => inFlight (jobs st) ≤ maxConcurrent limiter)).
    + intros i st st' H Hs. by eapply reconciles_inFlight.
    + simpl. rewrite inFlight_replicate_Queued. lia.
  - apply (rewrite_invariant
             (fun st => inFlight (jobs st) ≤ maxConcurrent limiter)).
    + intros i st st' H Hs. by eapply rewrites_inFlight.
    + simpl. rewrite inFlight_replicate_Queued. lia.
Qed.

(** ** Phase 2: the reconciler's decision *)

Lemma safeToWrite_iff found object :
  safeToWrite found object = true ↔
  found = None
  ∨ ∃ f, found = Some f ∧ String.ltb (updatedAt f) (updatedAt object) = true.
Proof.
  destruct found as [f|]; simpl; split; eauto.
  - intros [|(f' & [= <-] & H)]; done.
Qed.

Lemma reconcileStep_lookup limiter dryRun items i st item found :
  jobs st !! i = Some AwaitFindByUnique → items !! i = Some item →
  findByUnique (store st) (decoded item) = Ok found →
  reconcileStep limiter dryRun items i st
  = if safeToWrite found (decoded item)
    then if dryRun then push (decoded item) (setJob i Resolved st)
         else setJob i AwaitPut st
    else setJob i Resolved st.
Proof.
  intros Hj Hi Hf. unfold reconcileStep. rewrite Hj, Hi.
  fold (decoded item). by rewrite Hf.
Qed.

Lemma reconcileStep_put limiter dryRun items i st item s' :
  jobs st !! i = Some AwaitPut → items !! i = Some item →
  put (store st) uniqueKeyTableName (castToDatabaseObject (decoded item)) = Ok s' →
  reconcileStep limiter dryRun items i st
  = push (decoded item) (setJob i Resolved (setStore s' st)).
Proof.
  intros Hj Hi Hp. unfold reconcileStep. rewrite Hj, Hi.
  fold (decoded item). by rewrite Hp.
Qed.

Lemma reconcileStep_queued limiter dryRun items i st item :
  jobs st !! i = Some Queued → items !! i = Some item →
  inFlight (jobs st) < maxConcurrent limiter →
  reconcileStep limiter dryRun items i st
  = if stale item then setJob i AwaitFindByUnique st else setJob i Resolved st.
Proof.
  intros Hj Hi Hlt. unfold reconcileStep. rewrite Hj, Hi.
  unfold admits.
  destruct (Nat.ltb_spec (inFlight (jobs st)) (maxConcurrent limiter)); [|lia].
  unfold stale, expectedKey, decoded. by destruct (String.eqb _ _).
Qed.

Lemma ltb_false_leb a b : String.ltb a b = false ↔ String.leb b a = true.
Proof.
  unfold String.ltb, String.leb. rewrite (String.compare_antisym b a).
  destruct (String.compare a b); simpl; split; congruence.
Qed.

Lemma lookup_setJob_same st i j0 j :
  jobs st !! i = Some j0 → jobs (setJob i j st) !! i = Some j.
Proof.
  intros H. simpl. apply list_lookup_insert_eq. by eapply lookup_lt_Some.
Qed.

(** C1: A job looks the expected key up only for a record whose stored key
    differs from it.  On the answer of that lookup the job goes on to put
    the record at the expected key (in a dry run: counts it) exactly when
    nothing was found there or what was found has an [updatedAt] strictly
    earlier than the entity's; the put, once answered, writes the record at
    the expected key and counts the entity in [writtenRecords].  When the
    entity's [updatedAt] is earlier than or equal to that of the record
    found, the job resolves with the store and [writtenRecords] as they
    were. *)
Theorem reconciler_writes_iff_absent_or_older limiter dryRun items i item :
  items !! i = Some item →
  let object := decoded item in
  (* the lookup is reached by stale records only *)
  (∀ st, jobs st !! i = Some Queued →
         inFlight (jobs st) < maxConcurrent limiter →
         reconcileStep limiter dryRun items i st
         = if String.eqb (expectedKey item) (p item)
           then setJob i Resolved st else setJob i AwaitFindByUnique st)
  (* the decision on the answer of the lookup *)
  ∧ (∀ st found,
       jobs st !! i = Some AwaitFindByUnique →
       findByUnique (store st) object = Ok found →
       let st' := reconcileStep limiter dryRun items i st in
       let allowed :=
         found = None
         ∨ ∃ f, found = Some f ∧ String.ltb (updatedAt f) (updatedAt object) = true in
       (found = None ↔ query (store st) uniqueKeyTableName (expectedKey item) = Ok [])
       ∧ (allowed ↔
          if dryRun then writtenRecords st' = writtenRecords st ++ [object]
          else jobs st' !! i = Some AwaitPut)
       ∧ (allowed →
          st' = if dryRun then push object (setJob i Resolved st)
                else setJob i AwaitPut st)
       ∧ ((∃ f, found = Some f ∧ String.leb (updatedAt object) (updatedAt f) = true)
          → st' = setJob i Resolved st
            ∧ store st' = store st ∧ writtenRecords st' = writtenRecords st))
  (* the write itself *)
  ∧ (∀ st s',
       jobs st !! i = Some AwaitPut →
       put (store st) uniqueKeyTableName (castToDatabaseObject object) = Ok s' →
       let st' := reconcileStep limiter dryRun items i st in
       p (castToDatabaseObject object) = expectedKey item
       ∧ store st' = s'
       ∧ writtenRecords st' = writtenRecords st ++ [object]
       ∧ jobs st' = <[i:=Resolved]> (jobs st)).
Proof.
  intros Hi object. split; [|split].
  - intros st Hj Hlt. rewrite (reconcileStep_queued _ _ _ _ _ _ Hj Hi Hlt).
    unfold stale. by destruct (String.eqb _ _).
  - intros st found Hj Hf. cbv zeta.
    rewrite (reconcileStep_lookup _ _ _ _ _ _ _ Hj Hi Hf). fold object.
    rewrite <- safeToWrite_iff.
    split; [|split; [|split]].
    + pose proof (findByUnique_Ok_inv _ _ _ Hf) as Hinv. split.
      * intros ->. done.
      * intros Hq. destruct found as [f|]; [|done].
        destruct Hinv as (it & Hq' & _).
        unfold object, expectedKey, decoded in *. congruence.
    + destruct (safeToWrite found object) eqn:Hsafe; destruct dryRun; simpl.
      * done.
      * split; [intros _|done]. by eapply lookup_setJob_same.
      * split; [done|]. intros H. apply (f_equal length) in H.
        rewrite length_app in H. simpl in H. lia.
      * split; [done|]. intros H.
        rewrite list_lookup_insert_eq in H by (by eapply lookup_lt_Some). done.
    + intros H. by rewrite H.
    + intros (f & -> & H%ltb_false_leb). simpl. by rewrite H.
  - intros st s' Hj Hp. cbv zeta.
    rewrite (reconcileStep_put _ _ _ _ _ _ _ Hj Hi Hp). done.
Qed.

(** ** Failures *)

Lemma reconcile_keeps_rejection limiter dryRun items schedule st e :
  rejection st = Some e →
  rejection (runSchedule (reconcileStep limiter dryRun items) schedule st) = Some e.
Proof.
  apply (reconcile_invariant (fun st => rejection st = Some e)).
  intros i st0 st' H Hs. by eapply reconciles_rejection.
Qed.

Lemma reconcile_keeps_rejected limiter dryRun items schedule st k e :
  jobs st !! k = Some (Rejected e) →
  jobs (runSchedule (reconcileStep limiter dryRun items) schedule st) !! k
  = Some (Rejected e).
Proof.
  apply (reconcile_invariant (fun st => jobs st !! k = Some (Rejected e))).
  intros i st0 st' H Hs. by eapply reconciles_rejected.
Qed.

(** C7: When the lookup by the derived unique key finds more than one
    stored record, [findByUnique] throws; the job is rejected with that
    error without having written anything, it stays rejected, and the
    migration does not return a report: it rejects, and with this very
    error unless another job failed before. *)
Theorem ambiguous_unique_match_is_fatal limiter dryRun items i st item records :
  jobs st !! i = Some AwaitFindByUnique → items !! i = Some item →
  query (store st) uniqueKeyTableName (expectedKey item) = Ok records →
  1 < length records →
  let e := UnexpectedCodePathError "more than one object found by unique" in
  let st' := reconcileStep limiter dryRun items i st in
  findByUnique (store st) (decoded item) = Err e
  ∧ jobs st' !! i = Some (Rejected e)
  ∧ store st' = store st
  ∧ writtenRecords st' = writtenRecords st
  ∧ (∀ schedule,
       let st'' := runSchedule (reconcileStep limiter dryRun items) schedule st' in
       jobs st'' !! i = Some (Rejected e)
       ∧ (∃ e', rejection st'' = Some e')
       ∧ (rejection st = None → rejection st'' = Some e))
  ∧ (∀ fuel before after schedule3 src s pages out s',
       scanPages fuel s (sourceOf src) None [] = Some (Ok pages) →
       items = concat pages →
       st = reconciled limiter dryRun items before s →
       migrateWith limiter fuel (before ++ i :: after) schedule3 dryRun src s
       = Some (out, s') →
       ∃ e', out = Err e' ∧ (rejection st = None → e' = e)).
Proof.
  intros Hj Hi Hq Hlen e st'.
  assert (Hf : findByUnique (store st) (decoded item) = Err e)
    by (by eapply findByUnique_many).
  assert (Hst' : st' = reject i e st).
  { unfold st', reconcileStep. rewrite Hj, Hi. fold (decoded item). by rewrite Hf. }
  assert (Hlt : i < length (jobs st)) by (by eapply lookup_lt_Some).
  assert (Hrej : jobs st' !! i = Some (Rejected e)).
  { rewrite Hst'. simpl. by rewrite list_lookup_insert_eq. }
  assert (Hsome : ∃ e', rejection st' = Some e' ∧ (rejection st = None → e' = e)).
  { rewrite Hst'. simpl. destruct (rejection st); eauto. exists e0. done. }
  split; [done|]. split; [done|]. split; [by rewrite Hst'|]. split; [by rewrite Hst'|].
  split.
  - intros schedule st''. split; [by apply reconcile_keeps_rejected|].
    destruct Hsome as (e' & He' & Hfirst). split.
    + exists e'. by apply reconcile_keeps_rejection.
    + intros Hnone. rewrite <- (Hfirst Hnone). by apply reconcile_keeps_rejection.
  - intros fuel before after schedule3 src s pages out s' Hscan -> Hst.
    rewrite migrateWith_unfold, Hscan. cbv zeta.
    unfold reconciled at 1 2 3. rewrite runSchedule_app. simpl.
    fold (reconciled limiter dryRun (concat pages) before s). rewrite <- Hst.
    fold st'. destruct Hsome as (e' & He' & Hfirst).
    rewrite (reconcile_keeps_rejection _ _ _ after _ _ He').
    destruct (allSettled _); [|done]. intros [= <- _]. eauto.
Qed.




(** ** Counting the written records *)

Lemma tally_insert f (js : list Job) (items : list (Item Payload)) i j0 j item :
  js !! i = Some j0 → items !! i = Some item →
  tally f (<[i:=j]> js) items
  + (if match j0 with Resolved => f item | _ => false end then 1 else 0)
  = tally f js items
    + (if match j with Resolved => f item | _ => false end then 1 else 0).
Proof.
  revert i items. induction js as [|a js IH]; intros [|i] [|b items] Hj Hi;
    simpl in *; simplify_eq.
  - lia.
  - specialize (IH _ _ Hj Hi). lia.
Qed.

Lemma tally_all_resolved f (js : list Job) (items : list (Item Payload)) :
  (∀ i j, js !! i = Some j → j = Resolved) → length js = length items →
  tally f js items = length (List.filter f items).
Proof.
  revert items. induction js as [|a js IH]; intros [|b items] Hall Hlen;
    simpl in *; try done.
  rewrite (Hall 0 a eq_refl). rewrite IH.
  - destruct (f b); simpl; lia.
  - intros i j H. by apply (Hall (S i)).
  - lia.
Qed.

Lemma tally_replicate_Queued f n (items : list (Item Payload)) :
  tally f (replicate n Queued) items = 0.
Proof. revert items. induction n; intros [|b items]; simpl; auto. Qed.

(** Every job of a settled run without rejection has resolved. *)
Lemma settled_unrejected_resolved st :
  allSettled st = true → someRejected st = false →
  ∀ i j, jobs st !! i = Some j → j = Resolved.
Proof.
  unfold allSettled, someRejected. generalize (jobs st). intros js.
  induction js as [|a js IH]; intros Hs Hr [|i] j H; simpl in *; simplify_eq.
  - destruct j; simpl in *; done.
  - apply andb_prop in Hs as [_ Hs]. apply orb_false_elim in Hr as [_ Hr]. eauto.
Qed.

Lemma reconciled_length limiter dryRun items schedule s :
  length (jobs (reconciled limiter dryRun items schedule s)) = length items.
Proof.
  apply (reconcile_invariant (fun st => length (jobs st) = length items)).
  - intros i st st' <- H. by eapply reconciles_length.
  - simpl. apply length_replicate.
Qed.

Lemma rewritten_length limiter items schedule st2 :
  length (jobs (rewritten limiter items schedule st2)) = length items.
Proof.
  apply (rewrite_invariant (fun st => length (jobs st) = length items)).
  - intros i st st' <- H. by eapply rewrites_length.
  - simpl. apply length_replicate.
Qed.

(** The lookup reads the store through the query at the expected key only. *)
Lemma findByUnique_ext s1 s2 object :
  query s1 uniqueKeyTableName (p (castToDatabaseObject object))
  = query s2 uniqueKeyTableName (p (castToDatabaseObject object)) →
  findByUnique s1 object = findByUnique s2 object.
Proof. intros H. unfold findByUnique. by rewrite H. Qed.

Lemma wouldWrite_current s item : stale item = false → wouldWrite s item = false.
Proof. intros H. unfold wouldWrite. by rewrite H. Qed.

Lemma wouldWrite_verdict s item found :
  stale item = true → findByUnique s (decoded item) = Ok found →
  wouldWrite s item = safeToWrite found (decoded item).
Proof. intros H Hf. unfold wouldWrite. by rewrite H, Hf. Qed.

Lemma lookup_setJob_awaits (js : list Job) i k j target :
  j ≠ target → <[i:=j]> js !! k = Some target → js !! k = Some target ∧ i ≠ k.
Proof.
  intros Hne H. destruct (decide (i = k)) as [->|Hik].
  - destruct (decide (k < length js)).
    + rewrite list_lookup_insert_eq in H by done. congruence.
    + rewrite list_insert_ge in H by lia.
      apply lookup_lt_Some in H. lia.
  - by rewrite list_lookup_insert_ne in H.
Qed.

Lemma reconciles_dryCounts limiter items i s0 st st' :
  reconciles limiter true items i st st' →
  dryCounts s0 items st → dryCounts s0 items st'.
Proof.
  intros Hstep (Hdry & Hlen & Hstale).
  split; [by eapply reconciles_dry|].
  destruct Hdry as [Hs Hno].
  destruct Hstep as [|item Hj Hi Hlt Hst|item Hj Hi Hlt Hst|item e Hj Hi Hf
                     |item found Hj Hi Hf Hsafe _|item found Hj Hi Hf Hsafe Hd
                     |item found Hj Hi Hf Hsafe|item e Hj Hi Hp|item s' Hj Hi Hp];
    simpl; try done; try (exfalso; by eapply Hno).
  - split.
    + pose proof (tally_insert (wouldWrite s0) _ _ _ _ Resolved _ Hj Hi) as T.
      rewrite (wouldWrite_current s0 _ Hst) in T. simpl in T. lia.
    + intros k it Hk. apply lookup_setJob_awaits in Hk as [Hk _]; eauto.
  - split.
    + pose proof (tally_insert (wouldWrite s0) _ _ _ _ AwaitFindByUnique _ Hj Hi) as T.
      simpl in T. lia.
    + intros k it Hk Hit. destruct (decide (i = k)) as [->|Hik].
      * congruence.
      * rewrite list_lookup_insert_ne in Hk by done. eauto.
  - split.
    + pose proof (tally_insert (wouldWrite s0) _ _ _ _ (Rejected e) _ Hj Hi) as T.
      simpl in T. lia.
    + intros k it Hk. apply lookup_setJob_awaits in Hk as [Hk _]; eauto.
  - split.
    + pose proof (tally_insert (wouldWrite s0) _ _ _ _ Resolved _ Hj Hi) as T.
      rewrite (wouldWrite_verdict s0 _ _ (Hstale _ _ Hj Hi)) in T
        by (by rewrite <- Hs).
      rewrite Hsafe in T. simpl in T.
      rewrite length_app. simpl. lia.
    + intros k it Hk. apply lookup_setJob_awaits in Hk as [Hk _]; eauto.
  - split.
    + pose proof (tally_insert (wouldWrite s0) _ _ _ _ Resolved _ Hj Hi) as T.
      rewrite (wouldWrite_verdict s0 _ _ (Hstale _ _ Hj Hi)) in T
        by (by rewrite <- Hs).
      rewrite Hsafe in T. simpl in T. lia.
    + intros k it Hk. apply lookup_setJob_awaits in Hk as [Hk _]; eauto.
Qed.

Lemma reconciled_dryCounts limiter items schedule s :
  dryCounts s items (reconciled limiter true items schedule s).
Proof.
  apply (reconcile_invariant (dryCounts s items)).
  - intros i st st' H Hs. by eapply reconciles_dryCounts.
  - split; [|split].
    + split; [done|]. intros i. simpl. intros H%lookup_replicate. by destruct H.
    + simpl. by rewrite tally_replicate_Queued.
    + simpl. intros i item H%lookup_replicate. by destruct H.
Qed.

Lemma lookup_setJob_either (js : list Job) i k j :
  j ≠ Queued → j ≠ AwaitFindByUnique →
  <[i:=j]> js !! k = Some Queued ∨ <[i:=j]> js !! k = Some AwaitFindByUnique →
  (js !! k = Some Queued ∨ js !! k = Some AwaitFindByUnique) ∧ i ≠ k.
Proof.
  intros H1 H2 [H|H]; eapply lookup_setJob_awaits in H as [? ?]; eauto.
Qed.

Lemma reconciles_realCounts limiter items i s0 st st' :
  putFrame → staleKeysDistinct items →
  reconciles limiter false items i st st' →
  realCounts s0 items st → realCounts s0 items st'.
Proof.
  intros Hframe Hdistinct Hstep (Hsee & Hput & Hlen & Hstale).
  assert (Hverdict : ∀ item found,
             jobs st !! i = Some AwaitFindByUnique → items !! i = Some item →
             findByUnique (store st) (decoded item) = Ok found →
             wouldWrite s0 item = safeToWrite found (decoded item)).
  { intros item found Hj Hi Hf.
    apply wouldWrite_verdict; [by eapply Hstale|].
    rewrite <- (findByUnique_ext (store st) s0); [done|].
    apply (Hsee i); eauto. }
  destruct Hstep as [|item Hj Hi Hlt Hst|item Hj Hi Hlt Hst|item e Hj Hi Hf
                     |item found Hj Hi Hf Hsafe Hd|item found Hj Hi Hf Hsafe _
                     |item found Hj Hi Hf Hsafe|item e Hj Hi Hp|item s' Hj Hi Hp];
    try done; unfold realCounts; simpl.
  - (* a current record resolves at once *)
    split; [|split; [|split]].
    + intros k it Hit Hs Hk. apply lookup_setJob_either in Hk as [Hk _]; eauto.
    + intros k it Hk. apply lookup_setJob_awaits in Hk as [Hk _]; eauto.
    + pose proof (tally_insert (wouldWrite s0) _ _ _ _ Resolved _ Hj Hi) as T.
      rewrite (wouldWrite_current s0 _ Hst) in T. simpl in T. lia.
    + intros k it Hk. apply lookup_setJob_awaits in Hk as [Hk _]; eauto.
  - (* a stale record goes to its lookup *)
    split; [|split; [|split]].
    + intros k it Hit Hs Hk. apply (Hsee k); [done..|].
      destruct (decide (i = k)) as [->|Hik]; [eauto|].
      by rewrite list_lookup_insert_ne in Hk.
    + intros k it Hk. apply lookup_setJob_awaits in Hk as [Hk _]; eauto.
    + pose proof (tally_insert (wouldWrite s0) _ _ _ _ AwaitFindByUnique _ Hj Hi) as T.
      simpl in T. lia.
    + intros k it Hk Hit. destruct (decide (i = k)) as [->|Hik]; [congruence|].
      rewrite list_lookup_insert_ne in Hk by done. eauto.
  - (* the lookup fails *)
    split; [|split; [|split]].
    + intros k it Hit Hs Hk. apply lookup_setJob_either in Hk as [Hk _]; eauto.
    + intros k it Hk. apply lookup_setJob_awaits in Hk as [Hk _]; eauto.
    + pose proof (tally_insert (wouldWrite s0) _ _ _ _ (Rejected e) _ Hj Hi) as T.
      simpl in T. lia.
    + intros k it Hk. apply lookup_setJob_awaits in Hk as [Hk _]; eauto.
  - (* the lookup allows the write *)
    split; [|split; [|split]].
    + intros k it Hit Hs Hk. apply lookup_setJob_either in Hk as [Hk _]; eauto.
    + intros k it Hk Hit. destruct (decide (i = k)) as [->|Hik].
      * rewrite Hi in Hit. injection Hit as <-.
        rewrite (Hverdict _ _ Hj Hi Hf). done.
      * rewrite list_lookup_insert_ne in Hk by done. eauto.
    + pose proof (tally_insert (wouldWrite s0) _ _ _ _ AwaitPut _ Hj Hi) as T.
      simpl in T. lia.
    + intros k it Hk. apply lookup_setJob_awaits in Hk as [Hk _]; eauto.
  - (* the lookup forbids the write *)
    split; [|split; [|split]].
    + intros k it Hit Hs Hk. apply lookup_setJob_either in Hk as [Hk _]; eauto.
    + intros k it Hk. apply lookup_setJob_awaits in Hk as [Hk _]; eauto.
    + pose proof (tally_insert (wouldWrite s0) _ _ _ _ Resolved _ Hj Hi) as T.
      rewrite (Hverdict _ _ Hj Hi Hf), Hsafe in T. simpl in T. lia.
    + intros k it Hk. apply lookup_setJob_awaits in Hk as [Hk _]; eauto.
  - (* the put fails *)
    split; [|split; [|split]].
    + intros k it Hit Hs Hk. apply lookup_setJob_either in Hk as [Hk _]; eauto.
    + intros k it Hk. apply lookup_setJob_awaits in Hk as [Hk _]; eauto.
    + pose proof (tally_insert (wouldWrite s0) _ _ _ _ (Rejected e) _ Hj Hi) as T.
      simpl in T. lia.
    + intros k it Hk. apply lookup_setJob_awaits in Hk as [Hk _]; eauto.
  - (* the put is answered *)
    pose proof (Hput _ _ Hj Hi) as Hw.
    assert (Hsi : stale item = true).
    { unfold wouldWrite in Hw. by apply andb_prop in Hw as [? _]. }
    split; [|split; [|split]].
    + intros k it Hit Hs Hk. apply lookup_setJob_either in Hk as [Hk Hik]; [|done..].
      rewrite <- (Hsee k it Hit Hs Hk).
      apply (Hframe _ _ _ _ Hp). intros Heq. apply Hik.
      apply (Hdistinct i k item it); try done.
    + intros k it Hk. apply lookup_setJob_awaits in Hk as [Hk _]; eauto.
    + pose proof (tally_insert (wouldWrite s0) _ _ _ _ Resolved _ Hj Hi) as T.
      rewrite Hw in T. simpl in T. rewrite length_app. simpl. lia.
    + intros k it Hk. apply lookup_setJob_awaits in Hk as [Hk _]; eauto.
Qed.

Lemma reconciled_realCounts limiter items schedule s :
  putFrame → staleKeysDistinct items →
  realCounts s items (reconciled limiter false items schedule s).
Proof.
  intros Hframe Hdistinct.
  apply (reconcile_invariant (realCounts s items)).
  - intros i st st' H Hs. by eapply reconciles_realCounts.
  - split; [|split; [|split]]; simpl.
    + done.
    + intros i item H%lookup_replicate. by destruct H.
    + by rewrite tally_replicate_Queued.
    + intros i item H%lookup_replicate. by destruct H.
Qed.

(** The written count of a reconcile phase that settled without rejection. *)
Lemma settled_count (s0 : Store) items st :
  length (jobs st) = length items →
  rejectionTracksJobs st →
  allSettled st = true → rejection st = None →
  length (writtenRecords st) = tally (wouldWrite s0) (jobs st) items →
  length (writtenRecords st) = length (List.filter (wouldWrite s0) items).
Proof.
  intros Hlen Htr Hall Hrej ->. apply tally_all_resolved; [|done].
  apply settled_unrejected_resolved; [done|]. by apply Htr.
Qed.

(** ** Dry runs against real runs *)

(** C4 (as the code has it): A dry run executes neither the put of the
    reconcile phase nor the forced upsert, so it leaves the store as it
    was, whatever its outcome.  Its report counts the scanned records as a
    real run does, and counts as written the stale records whose lookup,
    against the unchanged store, allows the write; that is the count of a
    real run from the same store whenever no two stale records derive the
    same key (a put then never changes what another job's lookup sees). *)
Theorem dry_run_leaves_store_and_counts limiter fuel schedule2 schedule3 src s out s' :
  migrateWith limiter fuel schedule2 schedule3 true src s = Some (out, s') →
  s' = s
  ∧ ∀ stats, out = Ok stats →
      ∃ pages,
        scanPages fuel s (sourceOf src) None [] = Some (Ok pages)
        ∧ let items := concat pages in
          objects stats = length items
          ∧ writtenUniqueKeyRecords stats = length (List.filter (wouldWrite s) items)
          ∧ ∀ schedule2' schedule3' stats' s'',
              migrateWith limiter fuel schedule2' schedule3' false src s
              = Some (Ok stats', s'') →
              objects stats' = objects stats
              ∧ (putFrame → staleKeysDistinct items →
                 writtenUniqueKeyRecords stats' = writtenUniqueKeyRecords stats).
Proof.
  intros Hrun. split.
  - rewrite migrateWith_unfold in Hrun.
    destruct (scanPages _ _ _ _ _) as [[pages|e]|]; [|by simplify_eq|done].
    cbv zeta in Hrun.
    pose proof (reconciled_dry limiter (concat pages) schedule2 s) as [Hs _].
    destruct (allSettled _); [|done].
    destruct (rejection _); simplify_eq; done.
  - intros stats ->.
    apply migrateWith_Ok in Hrun as (pages & Hscan & Hall & Hrej & -> & _).
    exists pages. split; [done|]. cbv zeta. split; [done|].
    pose proof (reconciled_dryCounts limiter (concat pages) schedule2 s)
      as (_ & Hcount & _).
    assert (Hdry : length (writtenRecords (reconciled limiter true (concat pages) schedule2 s))
                   = length (List.filter (wouldWrite s) (concat pages))).
    { apply settled_count; try done.
      - apply reconciled_length.
      - apply reconciled_tracks. }
    split; [done|].
    intros schedule2' schedule3' stats' s'' Hreal.
    apply migrateWith_Ok in Hreal as (pages' & Hscan' & Hall' & Hrej' & -> & _).
    rewrite Hscan in Hscan'. injection Hscan' as <-.
    split; [done|]. intros Hframe Hdistinct. simpl. rewrite Hdry.
    apply settled_count; try done.
    + apply reconciled_length.
    + apply reconciled_tracks.
    + by apply reconciled_realCounts.
Qed.

(** ** Identity across the migration *)

Lemma put_carries s e s' k u :
  putFrame → putWrites → identityRoundTrip →
  put s uniqueKeyTableName (castToDatabaseObject e) = Ok s' →
  (p (castToDatabaseObject e) = k → uuid e = u) →
  carries s k u → carries s' k u.
Proof.
  intros Hframe Hwrites Hround Hput Hu Hc records r Hq Hr.
  destruct (decide (k = p (castToDatabaseObject e))) as [->|Hne].
  - rewrite (Hwrites _ _ _ Hput) in Hq. injection Hq as <-.
    apply list_elem_of_singleton in Hr as ->. rewrite Hround. by apply Hu.
  - rewrite (Hframe _ _ _ _ Hput Hne) in Hq. eauto.
Qed.

Lemma put_held s item s' k :
  putFrame → putWrites →
  put s uniqueKeyTableName item = Ok s' →
  held s k ∨ p item = k → held s' k.
Proof.
  intros Hframe Hwrites Hput H.
  destruct (decide (k = p item)) as [->|Hne].
  - exists item, []. exact (Hwrites _ _ _ Hput).
  - destruct H as [(r & records & Hq)|]; [|done].
    exists r, records. by rewrite (Hframe _ _ _ _ Hput Hne).
Qed.

Lemma put_heldOnce s item s' k :
  putFrame → putWrites →
  put s uniqueKeyTableName item = Ok s' →
  heldOnce s k ∨ p item = k → heldOnce s' k.
Proof.
  intros Hframe Hwrites Hput H.
  destruct (decide (k = p item)) as [->|Hne].
  - exists item. exact (Hwrites _ _ _ Hput).
  - destruct H as [(r & Hq)|]; [|done].
    exists r. by rewrite (Hframe _ _ _ _ Hput Hne).
Qed.

Lemma lookup_setJob_resolved (js : list Job) i k j :
  <[i:=j]> js !! k = Some Resolved →
  (i = k ∧ j = Resolved) ∨ js !! k = Some Resolved.
Proof.
  intros H. destruct (decide (i = k)) as [->|Hik].
  - destruct (decide (k < length js)).
    + rewrite list_lookup_insert_eq in H by done. left. split; congruence.
    + rewrite list_insert_ge in H by lia. by right.
  - rewrite list_lookup_insert_ne in H by done. by right.
Qed.

Lemma reconciles_identity limiter items n item i st st' :
  putFrame → putWrites → identityRoundTrip →
  items !! n = Some item →
  (∀ item', item' ∈ items → expectedKey item' = expectedKey item →
            uuid (decoded item') = uuid (decoded item)) →
  reconciles limiter false items i st st' →
  identityReconciled items n item st → identityReconciled items n item st'.
Proof.
  intros Hframe Hwrites Hround Hn Hsame Hstep (Hc & Hcur & Hres).
  destruct Hstep as [|it Hj Hi Hlt Hst|it Hj Hi Hlt Hst|it e Hj Hi Hf
                     |it found Hj Hi Hf Hsafe Hd|it found Hj Hi Hf Hsafe _
                     |it found Hj Hi Hf Hsafe|it e Hj Hi Hp|it s' Hj Hi Hp];
    try done; simpl.
  - split; [done|]. split; [done|].
    intros [[-> _]|H]%lookup_setJob_resolved; [|eauto].
    apply Hcur. congruence.
  - split; [done|]. split; [done|].
    intros [[_ ?]|H]%lookup_setJob_resolved; [done|eauto].
  - split; [done|]. split; [done|].
    intros [[_ ?]|H]%lookup_setJob_resolved; [done|eauto].
  - split; [done|]. split; [done|].
    intros [[_ ?]|H]%lookup_setJob_resolved; [done|eauto].
  - split; [done|]. split; [done|].
    intros [[-> _]|H]%lookup_setJob_resolved; [|eauto].
    rewrite Hn in Hi. injection Hi as <-.
    destruct found as [f|]; [|done].
    apply findByUnique_Ok_inv in Hf as (r & Hq & _).
    exists r, []. done.
  - split; [done|]. split; [done|].
    intros [[_ ?]|H]%lookup_setJob_resolved; [done|eauto].
  - split; [|split].
    + eapply put_carries; try done. intros Hk. apply Hsame; [|done].
      apply list_elem_of_lookup. eauto.
    + intros H. eapply put_held; eauto.
    + intros [[-> _]|H]%lookup_setJob_resolved.
      * rewrite Hn in Hi. injection Hi as <-. eapply put_held; eauto.
      * eapply put_held; eauto.
Qed.

(** The forced upsert writes: it puts the entity, under the identity it
    found, at the entity's derived key. *)
Lemma upsert_forced s object s' :
  upsert s object true = Ok s' →
  ∃ found,
    findByUnique s object = Ok found
    ∧ put s uniqueKeyTableName
        (castToDatabaseObject
           {| uuid := match found with Some f => uuid f | None => newUuid s end;
              updatedAt := now s; fields := fields object |}) = Ok s'.
Proof.
  unfold upsert. destruct (findByUnique s object) as [found|e]; [|done].
  rewrite andb_false_r. eauto.
Qed.

Lemma lookup_map_decoded (items : list (Item Payload)) i object :
  map decoded items !! i = Some object →
  ∃ item, items !! i = Some item ∧ object = decoded item.
Proof.
  revert i. induction items as [|a items IH]; intros [|i] H; simpl in *;
    simplify_eq; eauto.
Qed.

Lemma rewrites_identity limiter items n item i st st' :
  putFrame → putWrites → identityRoundTrip → keyOfFields →
  items !! n = Some item →
  rewrites limiter (map decoded items) i st st' →
  identityRewritten n item st → identityRewritten n item st'.
Proof.
  intros Hframe Hwrites Hround Hkey Hn Hstep (Hc & Hheld & Hres).
  destruct Hstep as [|object Hj Hi Hlt|object e Hj Hi Hu|object s' Hj Hi Hu];
    try done; simpl.
  - split; [done|]. split; [done|].
    intros [[_ ?]|H]%lookup_setJob_resolved; [done|eauto].
  - split; [done|]. split; [done|].
    intros [[_ ?]|H]%lookup_setJob_resolved; [done|eauto].
  - apply lookup_map_decoded in Hi as (it & Hi & ->).
    apply upsert_forced in Hu as (found & Hf & Hput).
    set (written := {| uuid := match found with Some f => uuid f | None => newUuid (store st) end;
                       updatedAt := now (store st); fields := fields (decoded it) |}) in *.
    assert (Hk : p (castToDatabaseObject written) = expectedKey it)
      by exact (Hkey (decoded it) _ _).
    split; [|split].
    + eapply put_carries; try done. rewrite Hk. intros Heq. simpl.
      pose proof (findByUnique_Ok_inv _ _ _ Hf) as Hinv.
      destruct Hheld as (r & records & Hq).
      fold (expectedKey it) in Hinv. rewrite Heq, Hq in Hinv.
      destruct found as [f|]; [|done].
      destruct Hinv as (r' & Hinj & ->). injection Hinj as -> _.
      apply (Hc _ _ Hq). by apply list_elem_of_here.
    + eapply put_held; eauto.
    + intros [[-> _]|H]%lookup_setJob_resolved.
      * rewrite Hn in Hi. injection Hi as <-.
        eapply put_heldOnce; try done. by right.
      * eapply put_heldOnce; eauto.
Qed.

(** What a successful real run leaves at the derived key of a scanned
    record that shares it with records of its own identity only. *)
Lemma identity_kept_and_carried limiter fuel schedule2 schedule3 src s
    stats s' pages n item :
  putFrame → putWrites → keyOfFields → identityRoundTrip →
  migrateWith limiter fuel schedule2 schedule3 false src s = Some (Ok stats, s') →
  scanPages fuel s (sourceOf src) None [] = Some (Ok pages) →
  concat pages !! n = Some item →
  (∀ item', item' ∈ concat pages → expectedKey item' = expectedKey item →
            uuid (decoded item') = uuid (decoded item)) →
  carries s (expectedKey item) (uuid (decoded item)) →
  (stale item = false → held s (expectedKey item)) →
  identityKept s' item
  ∧ carries s' (expectedKey item) (uuid (decoded item)).
Proof.
  intros Hframe Hwrites Hkey Hround Hrun Hscan Hn Hsame Hcarry Hcurrent.
  apply migrateWith_Ok in Hrun as (pages' & Hscan' & Hall2 & Hrej2 & _ & Hall3 & Hrej3 & ->).
  rewrite Hscan in Hscan'. injection Hscan' as <-.
  set (items := concat pages) in *.
  set (st2 := reconciled limiter false items schedule2 s) in *.
  set (st3 := rewritten limiter items schedule3 st2) in *.
  assert (Hjob : ∀ st, length (jobs st) = length items →
                       rejectionTracksJobs st → allSettled st = true →
                       rejection st = None → jobs st !! n = Some Resolved).
  { intros st Hlen Htr Hall Hrej.
    destruct (jobs st !! n) as [j|] eqn:Hj.
    - f_equal. eapply settled_unrejected_resolved; eauto. by apply Htr.
    - apply lookup_ge_None in Hj. apply lookup_lt_Some in Hn. lia. }
  assert (H2 : identityReconciled items n item st2).
  { apply (reconcile_invariant (identityReconciled items n item)).
    - intros i st st' H Hs. by eapply reconciles_identity.
    - split; [done|]. split; [done|]. simpl.
      intros H%lookup_replicate. by destruct H. }
  destruct H2 as (Hc2 & _ & Hres2).
  assert (Hheld2 : held (store st2) (expectedKey item)).
  { apply Hres2, Hjob; try done.
    - apply reconciled_length.
    - apply reconciled_tracks. }
  assert (H3 : identityRewritten n item st3).
  { apply (rewrite_invariant (identityRewritten n item)).
    - intros i st st' H Hs. by eapply rewrites_identity.
    - split; [done|]. split; [done|]. simpl.
      intros H%lookup_replicate. by destruct H. }
  destruct H3 as (Hc3 & _ & Hres3).
  destruct Hres3 as (r & Hq).
  { apply Hjob; try done.
    - apply rewritten_length.
    - apply rewritten_tracks. }
  split; [|done].
  exists r. split; [done|]. apply (Hc3 _ _ Hq). by apply list_elem_of_here.
Qed.

(** C2 (as the code has it): After a successful real run, every scanned
    entity whose derived key is shared only with records of its own
    identity — the other scanned records deriving that key and what the
    unique index held there — has exactly one unique-index record at its
    derived key, and that record carries the entity's identity.  A record
    whose stored key is current must already be in the unique index, as it
    is when the source table is the unique-index table.  The collaborators
    are assumed lawful ([putFrame], [putWrites], [keyOfFields],
    [identityRoundTrip]). *)
Theorem identity_preserved_at_derived_key limiter fuel schedule2 schedule3 src s
    stats s' pages n item :
  putFrame → putWrites → keyOfFields → identityRoundTrip →
  migrateWith limiter fuel schedule2 schedule3 false src s = Some (Ok stats, s') →
  scanPages fuel s (sourceOf src) None [] = Some (Ok pages) →
  concat pages !! n = Some item →
  (∀ item', item' ∈ concat pages → expectedKey item' = expectedKey item →
            uuid (decoded item') = uuid (decoded item)) →
  carries s (expectedKey item) (uuid (decoded item)) →
  (stale item = false → held s (expectedKey item)) →
  identityKept s' item.
Proof.
  intros Hframe Hwrites Hkey Hround Hrun Hscan Hn Hsame Hcarry Hcurrent.
  by destruct (identity_kept_and_carried limiter fuel schedule2 schedule3 src s
                 stats s' pages n item Hframe Hwrites Hkey Hround Hrun Hscan Hn
                 Hsame Hcarry Hcurrent).
Qed.

(** ** Every run can be completed

    The model leaves a run incomplete when the schedule stops early.  The
    sequential schedule completes every run, so the statements above about
    complete runs are about runs that exist. *)

Lemma reconcileStep_settled limiter dryRun items i st j :
  jobs st !! i = Some j → settled j = true →
  reconcileStep limiter dryRun items i st = st.
Proof.
  intros Hj Hs. unfold reconcileStep. rewrite Hj.
  destruct (items !! i); [|done]. by destruct j.
Qed.

Lemma rewriteStep_settled limiter objs i st j :
  jobs st !! i = Some j → settled j = true →
  rewriteStep limiter objs i st = st.
Proof.
  intros Hj Hs. unfold rewriteStep. rewrite Hj. by destruct j.
Qed.

Lemma inFlight_none (js : list Job) :
  (∀ i j, js !! i = Some j → running j = false) → inFlight js = 0.
Proof.
  unfold inFlight. induction js as [|a js IH]; intros H; simpl; [done|].
  rewrite (H 0 a eq_refl). apply IH. intros i j Hj. by apply (H (S i)).
Qed.

Lemma inFlight_sequential k (js : list Job) :
  settledBelow k js → queuedFrom k js → inFlight js = 0.
Proof.
  intros Hs Hq. apply inFlight_none. intros i j Hj.
  destruct (decide (i < k)).
  - pose proof (Hs i j ltac:(done) Hj). by destruct j.
  - by rewrite (Hq i j ltac:(lia) Hj).
Qed.

(** Three resumptions settle a queued job of the reconcile phase when the
    limiter has room, and touch no other job. *)
Lemma reconcile_job_settles limiter dryRun items k st item :
  inFlight (jobs st) < maxConcurrent limiter →
  jobs st !! k = Some Queued → items !! k = Some item →
  ∃ j, settled j = true
       ∧ jobs (runSchedule (reconcileStep limiter dryRun items) [k; k; k] st)
         = <[k:=j]> (jobs st).
Proof.
  intros Hroom Hj Hi. simpl.
  assert (Hlt : k < length (jobs st)) by (by eapply lookup_lt_Some).
  rewrite (reconcileStep_queued _ _ _ _ _ _ Hj Hi Hroom).
  destruct (stale item).
  - set (st1 := setJob k AwaitFindByUnique st).
    assert (H1 : jobs st1 !! k = Some AwaitFindByUnique)
      by (by eapply lookup_setJob_same).
    destruct (findByUnique (store st1) (decoded item)) as [found|e] eqn:Hf.
    + rewrite (reconcileStep_lookup _ _ _ _ _ _ _ H1 Hi Hf).
      destruct (safeToWrite found (decoded item)); [destruct dryRun|].
      * exists Resolved. split; [done|].
        rewrite (reconcileStep_settled _ _ _ _ _ Resolved).
        -- simpl. apply list_insert_insert_eq.
        -- simpl. by rewrite list_insert_insert_eq, list_lookup_insert_eq.
        -- done.
      * set (st2 := setJob k AwaitPut st1).
        assert (H2 : jobs st2 !! k = Some AwaitPut) by (by eapply lookup_setJob_same).
        destruct (put (store st2) uniqueKeyTableName (castToDatabaseObject (decoded item)))
          as [s'|e] eqn:Hp.
        -- rewrite (reconcileStep_put _ _ _ _ _ _ _ H2 Hi Hp).
           exists Resolved. split; [done|]. simpl.
           by rewrite !list_insert_insert_eq.
        -- exists (Rejected e). split; [done|].
           unfold reconcileStep at 1. rewrite H2, Hi. fold (decoded item).
           rewrite Hp. simpl. by rewrite !list_insert_insert_eq.
      * exists Resolved. split; [done|].
        rewrite (reconcileStep_settled _ _ _ _ _ Resolved).
        -- simpl. apply list_insert_insert_eq.
        -- simpl. by rewrite list_insert_insert_eq, list_lookup_insert_eq.
        -- done.
    + assert (H2 : reconcileStep limiter dryRun items k st1 = reject k e st1).
      { unfold reconcileStep. rewrite H1, Hi. fold (decoded item). by rewrite Hf. }
      rewrite H2. exists (Rejected e). split; [done|].
      rewrite (reconcileStep_settled _ _ _ _ _ (Rejected e)).
      * simpl. apply list_insert_insert_eq.
      * simpl. by rewrite list_insert_insert_eq, list_lookup_insert_eq.
      * done.
  - exists Resolved. split; [done|].
    set (st1 := setJob k Resolved st).
    assert (H1 : jobs st1 !! k = Some Resolved) by (by eapply lookup_setJob_same).
    by rewrite !(reconcileStep_settled _ _ _ _ _ Resolved H1).
Qed.

Lemma rewrite_job_settles limiter objs k st object :
  inFlight (jobs st) < maxConcurrent limiter →
  jobs st !! k = Some Queued → objs !! k = Some object →
  ∃ j, settled j = true
       ∧ jobs (runSchedule (rewriteStep limiter objs) [k; k; k] st)
         = <[k:=j]> (jobs st).
Proof.
  intros Hroom Hj Hi. simpl.
  assert (Hlt : k < length (jobs st)) by (by eapply lookup_lt_Some).
  assert (H0 : rewriteStep limiter objs k st = setJob k AwaitUpsert st).
  { unfold rewriteStep, admits. rewrite Hj, Hi.
    by destruct (Nat.ltb_spec (inFlight (jobs st)) (maxConcurrent limiter)); [|lia]. }
  rewrite H0. set (st1 := setJob k AwaitUpsert st).
  assert (H1 : jobs st1 !! k = Some AwaitUpsert) by (by eapply lookup_setJob_same).
  destruct (upsert (store st1) object true) as [s'|e] eqn:Hu.
  - assert (H2 : rewriteStep limiter objs k st1 = setJob k Resolved (setStore s' st1)).
    { unfold rewriteStep. by rewrite H1, Hi, Hu. }
    rewrite H2. exists Resolved. split; [done|].
    rewrite (rewriteStep_settled _ _ _ _ Resolved).
    + simpl. apply list_insert_insert_eq.
    + simpl. by rewrite list_insert_insert_eq, list_lookup_insert_eq.
    + done.
  - assert (H2 : rewriteStep limiter objs k st1 = reject k e st1).
    { unfold rewriteStep. by rewrite H1, Hi, Hu. }
    rewrite H2. exists (Rejected e). split; [done|].
    rewrite (rewriteStep_settled _ _ _ _ (Rejected e)).
    + simpl. apply list_insert_insert_eq.
    + simpl. by rewrite list_insert_insert_eq, list_lookup_insert_eq.
    + done.
Qed.

Lemma sequential_S n : sequential (S n) = sequential n ++ [n; n; n].
Proof.
  unfold sequential. rewrite seq_S, flat_map_app. simpl. done.
Qed.

(** The shape of the jobs after [k] rounds of a step whose three
    resumptions settle a queued job. *)
Lemma sequential_rounds (step : nat → Run → Run) limiter n st0 :
  0 < maxConcurrent limiter →
  jobs st0 = replicate n Queued →
  (∀ k st, k < n → inFlight (jobs st) < maxConcurrent limiter →
           jobs st !! k = Some Queued →
           ∃ j, settled j = true
                ∧ jobs (runSchedule step [k; k; k] st) = <[k:=j]> (jobs st)) →
  ∀ k, k ≤ n →
    let st := runSchedule step (sequential k) st0 in
    length (jobs st) = n ∧ settledBelow k (jobs st) ∧ queuedFrom k (jobs st).
Proof.
  intros Hroom Hstart Hround. induction k as [|k IH]; intros Hk; cbv zeta.
  - simpl. rewrite Hstart. split; [apply length_replicate|]. split.
    + intros i j Hi. lia.
    + intros i j _ H%lookup_replicate. by destruct H.
  - rewrite sequential_S, runSchedule_app.
    destruct (IH ltac:(lia)) as (Hlen & Hs & Hq).
    set (st := runSchedule step (sequential k) st0) in *.
    assert (Hjob : jobs st !! k = Some Queued).
    { destruct (jobs st !! k) as [j|] eqn:Hj.
      - by rewrite (Hq k j ltac:(lia) Hj).
      - apply lookup_ge_None in Hj. lia. }
    destruct (Hround k st ltac:(lia)) as (j & Hj & ->); [|done|].
    { rewrite (inFlight_sequential k) by done. lia. }
    rewrite length_insert. split; [done|]. split.
    + intros i j' Hi Hl. destruct (decide (i = k)) as [->|Hne].
      * rewrite list_lookup_insert_eq in Hl by lia. congruence.
      * rewrite list_lookup_insert_ne in Hl by done. apply (Hs i); [lia|done].
    + intros i j' Hi Hl. rewrite list_lookup_insert_ne in Hl by lia.
      apply (Hq i); [lia|done].
Qed.

Lemma settledBelow_allSettled st :
  settledBelow (length (jobs st)) (jobs st) → allSettled st = true.
Proof.
  unfold allSettled. intros H. apply forallb_forall. intros j Hin.
  apply list_elem_of_In, list_elem_of_lookup in Hin as [i Hi].
  apply (H i); [by eapply lookup_lt_Some|done].
Qed.

Lemma reconciled_sequential_settles limiter dryRun items s :
  0 < maxConcurrent limiter →
  allSettled (reconciled limiter dryRun items (sequential (length items)) s) = true.
Proof.
  intros Hroom. unfold reconciled.
  destruct (sequential_rounds (reconcileStep limiter dryRun items) limiter
              (length items) (startRun s (length items) []) Hroom eq_refl)
    with (k := length items) as (Hlen & Hs & _); [|done|].
  - intros k st Hk Hfree Hj.
    destruct (items !! k) as [item|] eqn:Hi.
    + by eapply reconcile_job_settles.
    + apply lookup_ge_None in Hi. lia.
  - apply settledBelow_allSettled. by rewrite Hlen.
Qed.

Lemma rewritten_sequential_settles limiter items st2 :
  0 < maxConcurrent limiter →
  allSettled (rewritten limiter items (sequential (length items)) st2) = true.
Proof.
  intros Hroom. unfold rewritten.
  destruct (sequential_rounds (rewriteStep limiter (map decoded items)) limiter
              (length items)
              (startRun (store st2) (length items) (writtenRecords st2)) Hroom eq_refl)
    with (k := length items) as (Hlen & Hs & _); [|done|].
  - intros k st Hk Hfree Hj.
    destruct (map decoded items !! k) as [object|] eqn:Hi.
    + by eapply rewrite_job_settles.
    + apply lookup_ge_None in Hi. rewrite length_map in Hi. lia.
  - apply settledBelow_allSettled. by rewrite Hlen.
Qed.

(** When the scan ends, the migration run under the sequential schedules
    returns: with a report or with the error of a failed job. *)
Lemma migration_completes limiter fuel dryRun src s rs :
  0 < maxConcurrent limiter →
  scanTrace s (sourceOf src) None rs → length rs ≤ fuel →
  let n := length (concat (map pageOf rs)) in
  ∃ out s',
    migrateWith limiter fuel (sequential n) (sequential n) dryRun src s
    = Some (out, s').
Proof.
  intros Hroom Htrace Hfuel n.
  rewrite migrateWith_unfold.
  rewrite (scanPages_trace _ _ _ _ Htrace fuel [] Hfuel). simpl.
  fold n. unfold n at 2 4.
  rewrite reconciled_sequential_settles by done.
  destruct (rejection _); [eauto|].
  destruct dryRun; [eauto|].
  rewrite rewritten_sequential_settles by done.
  destruct (rejection _); eauto.
Qed.

(** ** A second run *)









(** * Further properties of the generated code *)

(** ** The scan loop: failures and scans without end *)

Lemma scanPages_fails s t k n e :
  scanFails s t k n e →
  ∀ fuel pages, n < fuel → scanPages fuel s t k pages = Some (Err e).
Proof.
  induction 1 as [k e He|k r k' n e Hr Hk _ IH]; intros [|fuel] pages Hf;
    simpl; try lia.
  - by rewrite He.
  - rewrite Hr, Hk. apply IH. lia.
Qed.

Lemma scanPages_goes_on s t P :
  tokensGoOn s t P →
  ∀ fuel k pages, P k → scanPages fuel s t k pages = None.
Proof.
  intros Hon. induction fuel as [|fuel IH]; intros k pages Hk; simpl; [done|].
  destruct (Hon k Hk) as (r & k' & -> & -> & Hk'). by apply IH.
Qed.

(** The scan has no recovery: when a scan request fails, on the first page
    or after any number of pages, the migration rejects with that error
    before any job is scheduled; nothing is looked up or written, whatever
    [dryRun] is, and there is no report. *)
Theorem scan_failure_aborts_migration s src n e :
  scanFails s (sourceOf src) None n e →
  ∀ limiter fuel schedule2 schedule3 dryRun,
    n < fuel →
    migrateWith limiter fuel schedule2 schedule3 dryRun src s = Some (Err e, s).
Proof.
  intros Hfails limiter fuel schedule2 schedule3 dryRun Hfuel.
  rewrite migrateWith_unfold.
  by rewrite (scanPages_fails _ _ _ _ _ Hfails fuel [] Hfuel).
Qed.

(** The scan loop has no bound of its own: as long as every answer carries
    a continuation token (a token that repeats, for one) the loop asks
    again, and the migration never gets to its jobs: it returns nothing,
    however long it runs. *)
Theorem scan_without_last_page_never_returns s src (P : option Key → Prop) :
  tokensGoOn s (sourceOf src) P → P None →
  ∀ limiter fuel schedule2 schedule3 dryRun,
    scanPages fuel s (sourceOf src) None [] = None
    ∧ migrateWith limiter fuel schedule2 schedule3 dryRun src s = None.
Proof.
  intros Hon HP limiter fuel schedule2 schedule3 dryRun.
  pose proof (scanPages_goes_on _ _ _ Hon fuel None [] HP) as Hnone.
  split; [done|]. by rewrite migrateWith_unfold, Hnone.
Qed.

(** ** The reconcile phase: what it touches and what it leaves *)

Lemma lookup_insert_cases (js : list Job) i k j x :
  <[i:=j]> js !! k = Some x → (i = k ∧ x = j) ∨ (i ≠ k ∧ js !! k = Some x).
Proof.
  intros H. destruct (decide (i = k)) as [->|Hik].
  - left. split; [done|]. destruct (decide (k < length js)).
    + rewrite list_lookup_insert_eq in H by done. congruence.
    + rewrite list_insert_ge in H by lia. apply lookup_lt_Some in H. lia.
  - right. split; [done|]. by rewrite list_lookup_insert_ne in H.
Qed.

Lemma tally_le_filter f (js : list Job) (items : list (Item Payload)) :
  tally f js items ≤ length (List.filter f items).
Proof.
  revert items. induction js as [|j js IH]; intros [|item items]; simpl; try lia.
  specialize (IH items). destruct j, (f item); simpl; lia.
Qed.

Lemma filter_shorter f (items : list (Item Payload)) :
  length (List.filter f items) ≤ length items.
Proof. induction items as [|a l IH]; simpl; [done|]. destruct (f a); simpl; lia. Qed.

(** Only the jobs of stale records reach a store call. *)
Lemma reconciles_awaitsStale limiter dryRun items i st st' :
  reconciles limiter dryRun items i st st' →
  awaitsStale items st → awaitsStale items st'.
Proof.
  intros Hstep Hinv.
  assert (Hold : ∀ item, (jobs st !! i = Some AwaitFindByUnique
                          ∨ jobs st !! i = Some AwaitPut) →
                         items !! i = Some item → stale item = true).
  { intros item [H|H] Hi; eapply Hinv; eauto; [by left|by right]. }
  destruct Hstep as [|item Hj Hi Hlt Hst|item Hj Hi Hlt Hst|item e Hj Hi Hf
                     |item found Hj Hi Hf Hsafe Hd|item found Hj Hi Hf Hsafe Hd
                     |item found Hj Hi Hf Hsafe|item e Hj Hi Hp|item s' Hj Hi Hp];
    try done; intros k j item' Hk Haw Hik; simpl in Hk;
    apply lookup_insert_cases in Hk as [[<- ->]|[_ Hk]];
    try (by eapply Hinv);
    try (by destruct Haw);
    rewrite Hi in Hik; injection Hik as <-; eauto.
Qed.

Lemma reconciled_awaitsStale limiter dryRun items schedule s :
  awaitsStale items (reconciled limiter dryRun items schedule s).
Proof.
  apply (reconcile_invariant (awaitsStale items)).
  - intros i st st' H Hs. by eapply reconciles_awaitsStale.
  - intros i j item H%lookup_replicate [Ha|Ha]; destruct H; congruence.
Qed.

(** When no scanned record's stored key differs from the key the current
    schema derives, the reconcile phase does nothing at all: under every
    schedule it leaves the store as it was, writes and counts no record,
    and rejects no job, since no job ever gets as far as a lookup (so even
    an unreadable or ambiguous index cannot fail it). *)
Theorem current_records_are_left_alone limiter dryRun items schedule s :
  (∀ item, item ∈ items → stale item = false) →
  let st := reconciled limiter dryRun items schedule s in
  store st = s ∧ writtenRecords st = [] ∧ rejection st = None
  ∧ someRejected st = false
  ∧ ∀ i j, jobs st !! i = Some j → j = Queued ∨ j = Resolved.
Proof.
  intros Hcurrent st.
  assert (Hq : quiet s st).
  { apply (reconcile_invariant (quiet s)).
    - intros i st0 st' (Hs & Hw & Hr & Hjobs) Hstep.
      destruct Hstep as [|item Hj Hi Hlt Hst|item Hj Hi Hlt Hst|item e Hj Hi Hf
                         |item found Hj Hi Hf Hsafe Hd|item found Hj Hi Hf Hsafe Hd
                         |item found Hj Hi Hf Hsafe|item e Hj Hi Hp|item s' Hj Hi Hp];
        try done;
        try (destruct (Hjobs _ _ Hj); congruence).
      + repeat split; try done. simpl. intros k j Hk.
        apply lookup_insert_cases in Hk as [[_ ->]|[_ Hk]]; eauto.
      + rewrite (Hcurrent item) in Hst; [done|].
        apply list_elem_of_lookup. eauto.
    - repeat split; try done. simpl. intros i j H%lookup_replicate.
      left. by destruct H. }
  destruct Hq as (Hs & Hw & Hr & Hjobs).
  repeat split; try done.
  by apply (reconciled_tracks limiter dryRun items schedule s).
Qed.

Lemma reconciles_writtenStale limiter dryRun items i st st' :
  reconciles limiter dryRun items i st st' →
  writtenStale items st → writtenStale items st'.
Proof.
  intros Hstep (Haw & Hlen & Hin).
  split; [by eapply reconciles_awaitsStale|].
  assert (Hold : ∀ item, (jobs st !! i = Some AwaitFindByUnique
                          ∨ jobs st !! i = Some AwaitPut) →
                         items !! i = Some item → stale item = true).
  { intros item [H|H] Hi; eapply Haw; eauto; [by left|by right]. }
  destruct Hstep as [|item Hj Hi Hlt Hst|item Hj Hi Hlt Hst|item e Hj Hi Hf
                     |item found Hj Hi Hf Hsafe Hd|item found Hj Hi Hf Hsafe Hd
                     |item found Hj Hi Hf Hsafe|item e Hj Hi Hp|item s' Hj Hi Hp];
    try done; simpl;
    (split;
     [ first
         [ pose proof (tally_insert stale _ _ _ _ Resolved _ Hj Hi) as T
         | idtac ];
       try pose proof (tally_insert stale _ _ _ _ AwaitFindByUnique _ Hj Hi) as T1;
       try pose proof (tally_insert stale _ _ _ _ AwaitPut _ Hj Hi) as T2;
       try pose proof (tally_insert stale _ _ _ _ (Rejected e) _ Hj Hi) as T3;
       try rewrite (Hold item) in * by eauto;
       try rewrite Hst in *;
       rewrite ?length_app; simpl in *; lia
     | try done ]).
  - intros e [He|He%list_elem_of_singleton]%elem_of_app; [eauto|].
    exists item. split; [apply list_elem_of_lookup; eauto|]. split; [eauto|done].
  - intros e [He|He%list_elem_of_singleton]%elem_of_app; [eauto|].
    exists item. split; [apply list_elem_of_lookup; eauto|]. split; [eauto|done].
Qed.

(** The reconcile phase writes at most one record per stale scanned
    record, and nothing else: under every schedule, dry run or not, the
    written count is at most the number of stale records (and so at most
    [migrated.objects]), and every written record is the entity decoded
    from a stale scanned record. *)
Theorem written_records_are_stale_scanned limiter dryRun items schedule s :
  length (writtenRecords (reconciled limiter dryRun items schedule s))
  ≤ length (List.filter stale items)
  ∧ length (writtenRecords (reconciled limiter dryRun items schedule s))
    ≤ length items
  ∧ ∀ e, e ∈ writtenRecords (reconciled limiter dryRun items schedule s) →
         ∃ item, item ∈ items ∧ stale item = true ∧ e = decoded item.
Proof.
  assert (H : writtenStale items (reconciled limiter dryRun items schedule s)).
  { apply (reconcile_invariant (writtenStale items)).
    - intros i st st' Hs Hstep. by eapply reconciles_writtenStale.
    - split; [|split]; simpl.
      + intros i j item H%lookup_replicate [Ha|Ha]; destruct H; congruence.
      + lia.
      + intros e He. by apply not_elem_of_nil in He. }
  destruct H as (_ & Hlen & Hin).
  pose proof (tally_le_filter stale
                (jobs (reconciled limiter dryRun items schedule s)) items).
  pose proof (filter_shorter stale items).
  split; [lia|]. split; [lia|done].
Qed.

(** The reconcile phase touches the index at the expected keys of stale
    records only, and never empties a key: under every schedule, what the
    index holds at any other key is what it held before (so a record under
    an outdated key is neither removed nor replaced), and a key that held a
    record still holds one. *)
Theorem reconcile_leaves_other_keys limiter dryRun items schedule s :
  putFrame →
  (∀ k, (∀ item, item ∈ items → stale item = true → expectedKey item ≠ k) →
        query (store (reconciled limiter dryRun items schedule s)) uniqueKeyTableName k
        = query s uniqueKeyTableName k)
  ∧ (putWrites →
     ∀ k, held s k → held (store (reconciled limiter dryRun items schedule s)) k).
Proof.
  intros Hframe. split.
  - intros k Hother.
    assert (H : untouched s items k (reconciled limiter dryRun items schedule s)).
    { apply (reconcile_invariant (untouched s items k)).
      - intros i st st' [Haw Hq] Hstep.
        split; [by eapply reconciles_awaitsStale|].
        destruct Hstep as [|item Hj Hi Hlt Hst|item Hj Hi Hlt Hst|item e Hj Hi Hf
                           |item found Hj Hi Hf Hsafe Hd|item found Hj Hi Hf Hsafe Hd
                           |item found Hj Hi Hf Hsafe|item e Hj Hi Hp|item s' Hj Hi Hp];
          try done. simpl. rewrite <- Hq.
        apply (Hframe _ _ _ _ Hp). intros ->.
        apply (Hother item); [apply list_elem_of_lookup; eauto| |done].
        eapply Haw; eauto. by right.
      - split; [|done].
        intros i j item H%lookup_replicate [Ha|Ha]; destruct H; congruence. }
    by destruct H.
  - intros Hwrites.
    apply (reconcile_invariant (stillHeld s)); [|by intros k Hk].
    intros i st st' Hheld Hstep k Hk. specialize (Hheld k Hk).
    destruct Hstep; try done. simpl. eapply put_held; eauto.
Qed.

Lemma reconciles_heldReconciled limiter items n item i st st' :
  putFrame → putWrites →
  items !! n = Some item → stale item = true →
  reconciles limiter false items i st st' →
  heldReconciled n item st → heldReconciled n item st'.
Proof.
  intros Hframe Hwrites Hn Hstale Hstep Hres.
  destruct Hstep as [|it Hj Hi Hlt Hst|it Hj Hi Hlt Hst|it e Hj Hi Hf
                     |it found Hj Hi Hf Hsafe Hd|it found Hj Hi Hf Hsafe _
                     |it found Hj Hi Hf Hsafe|it e Hj Hi Hp|it s' Hj Hi Hp];
    try done; unfold heldReconciled; simpl; intros Hk;
    apply lookup_insert_cases in Hk as [[<- Hk]|[_ Hk]]; try done;
    try (by apply Hres).
  - congruence.
  - rewrite Hn in Hi. injection Hi as <-.
    destruct found as [f|]; [|done].
    apply findByUnique_Ok_inv in Hf as (r & Hq & _). by exists r, [].
  - rewrite Hn in Hi. injection Hi as <-. eapply put_held; eauto.
  - eapply put_held; eauto.
Qed.

(** The purpose of the reconcile phase: once the job of a stale record has
    resolved in a real run, the index holds a record at the key the current
    schema derives for it, so a later lookup of that entity by its unique
    key cannot come back empty (and the write path will not take the
    entity for a new one). *)
Theorem reconciled_index_holds_stale_keys limiter items schedule s n item :
  putFrame → putWrites →
  items !! n = Some item → stale item = true →
  jobs (reconciled limiter false items schedule s) !! n = Some Resolved →
  held (store (reconciled limiter false items schedule s)) (expectedKey item)
  ∧ findByUnique (store (reconciled limiter false items schedule s)) (decoded item)
    ≠ Ok None.
Proof.
  intros Hframe Hwrites Hn Hstale Hres.
  assert (H : heldReconciled n item (reconciled limiter false items schedule s)).
  { apply (reconcile_invariant (heldReconciled n item)).
    - intros i st st' Hs Hstep. by eapply reconciles_heldReconciled.
    - intros H%lookup_replicate. by destruct H. }
  specialize (H Hres). split; [done|].
  intros Hnone. apply findByUnique_Ok_inv in Hnone.
  destruct H as (r & records & Hq).
  unfold expectedKey in Hq. fold (decoded item) in Hnone. congruence.
Qed.


(** ** What the index holds after the reconcile phase *)





(** ** The report *)

Lemma scanPages_agree fuel1 fuel2 s t k pages out1 out2 :
  scanPages fuel1 s t k pages = Some (Ok out1) →
  scanPages fuel2 s t k pages = Some (Ok out2) → out1 = out2.
Proof.
  intros (rs1 & T1 & _ & ->)%scanPages_inv (rs2 & T2 & _ & ->)%scanPages_inv.
  by rewrite (scanTrace_functional _ _ _ _ T1 _ T2).
Qed.

Lemma report_of_run limiter fuel schedule2 schedule3 dryRun src s stats s' pages :
  putFrame →
  scanPages fuel s (sourceOf src) None [] = Some (Ok pages) →
  staleKeysDistinct (concat pages) →
  migrateWith limiter fuel schedule2 schedule3 dryRun src s = Some (Ok stats, s') →
  stats = expectedStats src s (concat pages).
Proof.
  intros Hframe Hscan Hdistinct Hrun.
  apply migrateWith_Ok in Hrun as (pages' & Hscan' & Hall & Hrej & -> & _).
  rewrite Hscan in Hscan'. injection Hscan' as <-.
  unfold statsOf, expectedStats. f_equal.
  apply settled_count; try done.
  - apply reconciled_length.
  - apply reconciled_tracks.
  - destruct dryRun.
    + by pose proof (reconciled_dryCounts limiter (concat pages) schedule2 s)
        as (_ & Hcount & _).
    + by pose proof (reconciled_realCounts limiter (concat pages) schedule2 s
                       Hframe Hdistinct) as (_ & _ & Hcount & _).
Qed.

(** The report does not depend on the interleaving.  When the stale
    scanned records have distinct derived keys, the report of a successful
    run is determined by the store it started from: [migrated.objects] is
    the number of scanned records and [writtenUniqueKeyRecords] the number
    of stale records whose lookup against the initial store allows the
    write.  Any other successful run from that store, under whatever
    schedules, limiter and page budget, dry or real, returns the same
    report. *)
Theorem report_independent_of_schedule limiter fuel schedule2 schedule3 dryRun
    src s stats s' :
  putFrame →
  migrateWith limiter fuel schedule2 schedule3 dryRun src s = Some (Ok stats, s') →
  ∃ pages,
    scanPages fuel s (sourceOf src) None [] = Some (Ok pages)
    ∧ (staleKeysDistinct (concat pages) →
       stats = expectedStats src s (concat pages)
       ∧ ∀ limiter' fuel' schedule2' schedule3' dryRun' stats' s'',
           migrateWith limiter' fuel' schedule2' schedule3' dryRun' src s
           = Some (Ok stats', s'') →
           stats' = stats).
Proof.
  intros Hframe Hrun.
  pose proof Hrun as (pages & Hscan & _)%migrateWith_Ok.
  exists pages. split; [done|]. intros Hdistinct.
  pose proof (report_of_run _ _ _ _ _ _ _ _ _ _ Hframe Hscan Hdistinct Hrun) as ->.
  split; [done|].
  intros limiter' fuel' schedule2' schedule3' dryRun' stats' s'' Hrun'.
  pose proof Hrun' as (pages' & Hscan' & _)%migrateWith_Ok.
  pose proof (scanPages_agree _ _ _ _ _ _ _ _ Hscan Hscan') as <-.
  by eapply report_of_run.
Qed.

Lemma runSchedule_no_jobs step schedule st :
  (∀ i st, jobs st = [] → step i st = st) →
  jobs st = [] → runSchedule step schedule st = st.
Proof.
  intros Hstep Hnone. induction schedule as [|i l IH]; simpl; [done|].
  by rewrite Hstep.
Qed.

(** An empty source table: when the scan finds no record at all (pages
    without items), the migration returns a report of zeros under every
    schedule and leaves the store as it was, in a real run as in a dry
    run. *)
Theorem empty_table_migrates_nothing limiter fuel schedule2 schedule3 dryRun
    src s pages :
  scanPages fuel s (sourceOf src) None [] = Some (Ok pages) →
  concat pages = [] →
  migrateWith limiter fuel schedule2 schedule3 dryRun src s
  = Some (Ok {| from := sourceOf src; to := uniqueKeyTableName;
                writtenUniqueKeyRecords := 0; objects := 0 |}, s).
Proof.
  intros Hscan Hempty.
  rewrite migrateWith_unfold, Hscan. cbv zeta. rewrite Hempty.
  unfold reconciled, rewritten.
  rewrite (runSchedule_no_jobs (reconcileStep limiter dryRun []));
    [|intros; by apply reconcileStep_no_jobs|done].
  simpl. destruct dryRun; [done|].
  rewrite (runSchedule_no_jobs (rewriteStep limiter []));
    [done|intros; by apply rewriteStep_no_jobs|done].
Qed.

End Properties.

(** * The in-memory store is lawful *)

Import Mem.
#[local] Existing Instance memory.

Lemma filter_key_other k k' (l : list (Item Entity)) :
  k ≠ k' →
  List.filter (fun x => String.eqb (p x) k)
    (List.filter (fun x => negb (String.eqb (p x) k')) l)
  = List.filter (fun x => String.eqb (p x) k) l.
Proof.
  intros Hne. induction l as [|x l IH]; simpl; [done|].
  destruct (String.eqb_spec (p x) k') as [Hx|Hx]; simpl.
  - destruct (String.eqb_spec (p x) k); [congruence|done].
  - by rewrite IH.
Qed.

Lemma filter_key_removed k (l : list (Item Entity)) :
  List.filter (fun x => String.eqb (p x) k)
    (List.filter (fun x => negb (String.eqb (p x) k)) l) = [].
Proof.
  induction l as [|x l IH]; simpl; [done|].
  destruct (String.eqb_spec (p x) k) as [Hx|Hx]; simpl; [done|].
  by destruct (String.eqb_spec (p x) k).
Qed.

Lemma memory_putFrame : @putFrame memory.
Proof.
  intros s item s' k [= <-] Hne. simpl. unfold memQuery, table. simpl.
  rewrite lookup_insert_eq. simpl. f_equal.
  rewrite List.filter_app, filter_key_other by done. simpl.
  destruct (String.eqb _ k) eqn:E; [|apply app_nil_r].
  apply String.eqb_eq in E. destruct Hne. symmetry. exact E.
Qed.

Lemma memory_putWrites : @putWrites memory.
Proof.
  intros s item s' [= <-]. simpl. unfold memQuery, table. simpl.
  rewrite lookup_insert_eq. simpl. f_equal.
  rewrite List.filter_app, filter_key_removed. simpl.
  by rewrite String.eqb_refl.
Qed.

Lemma memory_keyOfFields : @keyOfFields memory.
Proof. intros e u t. done. Qed.

Lemma memory_identityRoundTrip : @identityRoundTrip memory.
Proof. intros e. done. Qed.

(** * The migration on concrete tables *)

(** The table of forty records is scanned in three pages. *)
Lemma paged_scanTrace : scanTrace (C:=memory) paged "thing-by-unique" None pagedAnswers.
Proof.
  unfold pagedAnswers.
  eapply (@scanTrace_more memory); [vm_compute; reflexivity|reflexivity|].
  eapply (@scanTrace_more memory); [vm_compute; reflexivity|reflexivity|].
  eapply (@scanTrace_last memory); [vm_compute; reflexivity|reflexivity].
Defined.

(** C5 on the table of forty records: three pages, forty decoded entities,
    and [migrated.objects = 40]. *)
Lemma scan_pagination_complete_witness :
  scanPages (C:=memory) 3 paged "thing-by-unique" None []
  = Some (Ok (map pageOf pagedAnswers))
  ∧ length pagedAnswers = 3
  ∧ length (map (decoded (C:=memory)) (concat (map pageOf pagedAnswers))) = 40
  ∧ ∃ stats s',
      migrateAllRecordsToNewSchema (C:=memory) 3 (sequential 40) (sequential 40)
        false None paged = Some (Ok stats, s')
      ∧ objects stats = 40.
Proof.
  destruct (scan_pagination_complete (C:=memory) paged None pagedAnswers paged_scanTrace)
    as (Hscan & _ & Hdecoded & Hreport).
  split; [apply (Hscan 3); simpl; lia|].
  split; [reflexivity|].
  split; [rewrite Hdecoded; vm_compute; reflexivity|].
  eexists _, _. split; [vm_compute; reflexivity|reflexivity].
Defined.

(** C9 on a dry run over two stale records: two objects reported, nothing
    written. *)
Lemma migrated_objects_counts_scanned_witness :
  ∃ pages,
    scanPages (C:=memory) 1 twoStale "thing-by-unique" None [] = Some (Ok pages)
    ∧ objects (report 2 2) = length (concat pages)
    ∧ objects (report 2 2) = length (map (decoded (C:=memory)) (concat pages))
    ∧ (true = true → twoStale = twoStale).
Proof.
  apply (migrated_objects_counts_scanned (C:=memory) bottleneck 1
           (sequential 2) [] true None twoStale (report 2 2) twoStale).
  vm_compute; reflexivity.
Defined.

(** C10 on an empty table: the store omits [Items]; the loop records an
    empty page and the migration reports zero and zero. *)
Lemma absent_items_is_empty_page_witness :
  scanPages (C:=memory) 1 noRecords "thing-by-unique" None [] = Some (Ok [[]])
  ∧ migrateAllRecordsToNewSchema (C:=memory) 1 [0; 1] [2] false None noRecords
    = Some (Ok (report 0 0), noRecords).
Proof.
  destruct (absent_items_is_empty_page (C:=memory)) as [Hpage Hnone].
  assert (Hscan : scanPages (C:=memory) 1 noRecords "thing-by-unique" None []
                  = Some (Ok [[]])).
  { apply (Hpage 0 noRecords "thing-by-unique"%string None []
             {| Items := None; LastEvaluatedKey := None |}); reflexivity. }
  split; [exact Hscan|].
  apply (Hnone bottleneck 1 [0; 1] [2] false None noRecords [[]] Hscan).
  reflexivity.
Defined.

(** C8 with a ceiling of two and ten queued jobs: however many are asked
    to start, two are in flight. *)
Lemma limiter_bounds_jobs_in_flight_witness :
  inFlight (jobs (reconciled (C:=memory) narrow false tenStale (seq 0 10)
                    (mkStore tenStale 10))) = 2
  ∧ inFlight (jobs (reconciled (C:=memory) narrow false tenStale
                      (seq 0 10 ++ [0; 0; 0] ++ seq 0 10) (mkStore tenStale 10))) ≤ 2.
Proof.
  split; [vm_compute; reflexivity|].
  apply (limiter_bounds_jobs_in_flight (C:=memory) narrow false tenStale
           (seq 0 10 ++ [0; 0; 0] ++ seq 0 10) [] (mkStore tenStale 10)
           (startRun (C:=memory) (mkStore tenStale 10) 0 [])).
Defined.

(** C1 on three tables: over an earlier record and over no record the job
    goes on to the put; over a more recent record it resolves at once. *)
Lemma reconciler_writes_iff_absent_or_older_witness :
  reconcileStep bottleneck false (uniqueTable staleOverEarlier) 0 (afterStart staleOverEarlier)
  = setJob 0 AwaitPut (afterStart staleOverEarlier)
  ∧ reconcileStep bottleneck false (uniqueTable oneStale) 0 (afterStart oneStale)
    = setJob 0 AwaitPut (afterStart oneStale)
  ∧ reconcileStep bottleneck false (uniqueTable doubleRegistered) 0 (afterStart doubleRegistered)
    = setJob 0 Resolved (afterStart doubleRegistered).
Proof.
  split; [|split].
  - destruct (reconciler_writes_iff_absent_or_older (C:=memory) bottleneck false
                (uniqueTable staleOverEarlier) 0 turtleOld eq_refl) as (_ & Hdecide & _).
    destruct (Hdecide (afterStart staleOverEarlier) (Some (o turtleEarly))
                ltac:(vm_compute; reflexivity) ltac:(vm_compute; reflexivity))
      as (_ & _ & Hwrite & _).
    apply Hwrite. right. eexists. split; reflexivity.
  - destruct (reconciler_writes_iff_absent_or_older (C:=memory) bottleneck false
                (uniqueTable oneStale) 0 turtleOld eq_refl) as (_ & Hdecide & _).
    destruct (Hdecide (afterStart oneStale) None
                ltac:(vm_compute; reflexivity) ltac:(vm_compute; reflexivity))
      as (_ & _ & Hwrite & _).
    apply Hwrite. by left.
  - destruct (reconciler_writes_iff_absent_or_older (C:=memory) bottleneck false
                (uniqueTable doubleRegistered) 0 turtleOld eq_refl) as (_ & Hdecide & _).
    destruct (Hdecide (afterStart doubleRegistered) (Some (o turtleNew))
                ltac:(vm_compute; reflexivity) ltac:(vm_compute; reflexivity))
      as (_ & _ & _ & Hskip).
    apply Hskip. eexists. split; reflexivity.
Defined.

(** C7 on the table with two records under one key. *)
Lemma ambiguous_unique_match_is_fatal_witness :
  findByUnique ambiguous (decoded turtleOld) = Err ambiguity
  ∧ jobs (reconcileStep bottleneck false (uniqueTable ambiguous) 0 (afterStart ambiguous)) !! 0
    = Some (Rejected ambiguity)
  ∧ store (reconcileStep bottleneck false (uniqueTable ambiguous) 0 (afterStart ambiguous))
    = store (afterStart ambiguous)
  ∧ writtenRecords (reconcileStep bottleneck false (uniqueTable ambiguous) 0 (afterStart ambiguous))
    = writtenRecords (afterStart ambiguous).
Proof.
  destruct (ambiguous_unique_match_is_fatal (C:=memory) bottleneck false (uniqueTable ambiguous) 0
              (afterStart ambiguous) turtleOld [turtleNew; turtleTwin]
              ltac:(vm_compute; reflexivity) eq_refl
              ltac:(vm_compute; reflexivity) ltac:(simpl; lia))
    as (Hthrows & Hrejected & Hstore & Hwritten & _).
  repeat split; assumption.
Defined.



(** C4 as stated fails: two stale records of one turtle derive the same
    key.  The dry run counts both as written; in the real run both jobs
    start, the store answers the lookup and the put of the first, and the
    lookup of the second then finds that record, more recent than its
    own, at the key. *)
Lemma dry_run_count_differs :
  migrateAllRecordsToNewSchema 1 (sequential 2) [] true None twoStale
  = Some (Ok (report 2 2), twoStale)
  ∧ fst <$> migrateAllRecordsToNewSchema 1 [0; 1; 0; 0; 1; 1] (sequential 2) false None
              twoStale
    = Some (Ok (report 1 2))
  ∧ writtenUniqueKeyRecords (report 2 2) ≠ writtenUniqueKeyRecords (report 1 2).
Proof.
  split; [vm_compute; reflexivity|]. split; [vm_compute; reflexivity|].
  simpl. lia.
Qed.

Lemma oneStale_distinct : staleKeysDistinct [turtleOld].
Proof.
  intros [|i] [|j] a b Hi Hj _ _ _; simpl in *; try done.
Qed.

(** C4 as the code has it, on one stale record: the dry run leaves the
    store, reports one object and one written record, and so does every
    real run that succeeds. *)
Lemma dry_run_leaves_store_and_counts_witness :
  migrateAllRecordsToNewSchema 1 [0; 0; 0] [] true None oneStale
  = Some (Ok (report 1 1), oneStale)
  ∧ ∀ schedule2 schedule3 stats s',
      migrateAllRecordsToNewSchema 1 schedule2 schedule3 false None oneStale
      = Some (Ok stats, s') →
      objects stats = 1 ∧ writtenUniqueKeyRecords stats = 1.
Proof.
  assert (Hdry : migrateAllRecordsToNewSchema 1 [0; 0; 0] [] true None oneStale
                 = Some (Ok (report 1 1), oneStale)) by (vm_compute; reflexivity).
  split; [exact Hdry|].
  destruct (dry_run_leaves_store_and_counts (C:=memory) bottleneck 1 [0; 0; 0] [] None oneStale
              (Ok (report 1 1)) oneStale Hdry) as [_ Hreport].
  destruct (Hreport _ eq_refl) as (pages & Hscan & _ & _ & Hreal).
  assert (Hpages : pages = [[turtleOld]]).
  { assert (Hs : scanPages 1 oneStale (sourceOf None) None [] = Some (Ok [[turtleOld]]))
      by (vm_compute; reflexivity).
    rewrite Hs in Hscan. by injection Hscan as <-. }
  subst pages.
  intros schedule2 schedule3 stats s' Hrun.
  destruct (Hreal schedule2 schedule3 stats s' Hrun) as [Hobjects Hwritten].
  split; [exact Hobjects|].
  exact (Hwritten memory_putFrame oneStale_distinct).
Defined.

(** C2 as stated fails: the turtle is registered twice, under an outdated
    key with identity u1 and, more recently, under the current key with
    identity u2.  The reconciler keeps the more recent record, and after
    the migration the one record at the derived key carries u2: the
    identity u1 of the first entity is not the one found there.  No store
    could hold what the claim asks for both entities. *)
Lemma double_registration_loses_identity :
  turtleOld ∈ uniqueTable doubleRegistered
  ∧ turtleNew ∈ uniqueTable doubleRegistered
  ∧ fst <$> migrateAllRecordsToNewSchema 1 (sequential 2) (sequential 2) false None
              doubleRegistered
    = Some (Ok (report 0 2))
  ∧ query (migrated doubleRegistered (sequential 2) (sequential 2))
      "thing-by-unique" (expectedKey turtleOld)
    = Ok [stored "v2#turtle" (entity "u2" "2024-06-01" "turtle")]
  ∧ uuid (decoded turtleOld) = "u1"%string
  ∧ ¬ identityKept (migrated doubleRegistered (sequential 2) (sequential 2)) turtleOld
  ∧ ∀ s' : MemStore, ¬ (identityKept s' turtleOld ∧ identityKept s' turtleNew).
Proof.
  assert (Hq : query (migrated doubleRegistered (sequential 2) (sequential 2))
                 "thing-by-unique" (expectedKey turtleOld)
               = Ok [stored "v2#turtle" (entity "u2" "2024-06-01" "turtle")])
    by (vm_compute; reflexivity).
  split; [apply list_elem_of_here|].
  split; [apply list_elem_of_further, list_elem_of_here|].
  split; [vm_compute; reflexivity|]. split; [exact Hq|]. split; [reflexivity|].
  split.
  - intros (r & Hr & Hu).
    assert (E : Ok [r] = Ok [stored "v2#turtle" (entity "u2" "2024-06-01" "turtle")])
      by (rewrite <- Hr; exact Hq).
    injection E as ->. discriminate Hu.
  - intros s' [(r & Hr & Hu) (r' & Hr' & Hu')].
    assert (E : Ok [r] = Ok [r']) by (rewrite <- Hr; exact Hr').
    injection E as ->. rewrite Hu in Hu'. discriminate Hu'.
Qed.

(** C2 as the code has it, on a stale record over an earlier record of the
    same identity at the current key. *)
Lemma identity_preserved_at_derived_key_witness :
  identityKept (migrated staleOverEarlier (sequential 2) (sequential 2)) turtleOld.
Proof.
  apply (identity_preserved_at_derived_key (C:=memory) bottleneck 1 (sequential 2) (sequential 2)
           None staleOverEarlier (report 1 2)
           (migrated staleOverEarlier (sequential 2) (sequential 2))
           [uniqueTable staleOverEarlier] 0 turtleOld
           memory_putFrame memory_putWrites memory_keyOfFields memory_identityRoundTrip).
  - vm_compute; reflexivity.
  - vm_compute; reflexivity.
  - reflexivity.
  - intros item' Hin _.
    apply list_elem_of_In in Hin. simpl in Hin.
    destruct Hin as [<-|[<-|[]]]; reflexivity.
  - intros records r Hq Hr.
    assert (Hs : query staleOverEarlier uniqueKeyTableName (expectedKey turtleOld)
                 = Ok [turtleEarly]) by (vm_compute; reflexivity).
    rewrite Hs in Hq. injection Hq as <-.
    apply list_elem_of_singleton in Hr as ->. reflexivity.
  - intros H. vm_compute in H. discriminate H.
Defined.






(** * Further cases *)

(** The table of forty records behind a throttled client: the first page
    arrives, the second request fails, and the migration rejects with that
    failure and leaves the store. *)
Lemma scan_failure_aborts_migration_witness :
  scanFails (C:=flaky) paged "thing-by-unique" None 1 (TransportFailure "throttled")
  ∧ migrateWith (C:=flaky) bottleneck 5 (sequential 40) (sequential 40) false None paged
    = Some (Err (TransportFailure "throttled"), paged).
Proof.
  assert (H : scanFails (C:=flaky) paged "thing-by-unique" None 1
                (TransportFailure "throttled")).
  { eapply (@scanFails_later flaky); [vm_compute; reflexivity|reflexivity|].
    apply (@scanFails_now flaky). reflexivity. }
  split; [exact H|].
  apply (scan_failure_aborts_migration (C:=flaky) paged None 1 _ H bottleneck 5).
  lia.
Defined.

(** A store that answers every scan request with the same continuation
    token: a thousand requests do not end the scan. *)
Lemma scan_without_last_page_never_returns_witness :
  scanPages (C:=looping) 1000 noRecords "thing-by-unique" None [] = None
  ∧ migrateWith (C:=looping) bottleneck 1000 [] [] true None noRecords = None.
Proof.
  apply (scan_without_last_page_never_returns (C:=looping) noRecords None
           (fun _ => True)); [|exact I].
  intros k _. eexists _, _. split; [reflexivity|]. split; [reflexivity|exact I].
Defined.

(** Two current records, registered under the same key: the reconcile
    phase does not look either up, and so does not trip over the
    ambiguity. *)
Lemma current_records_are_left_alone_witness :
  (∀ item, item ∈ uniqueTable twoCurrent → stale (C:=memory) item = false)
  ∧ store (reconciled (C:=memory) bottleneck false (uniqueTable twoCurrent)
             [0; 1; 0; 1] twoCurrent) = twoCurrent
  ∧ rejection (reconciled (C:=memory) bottleneck false (uniqueTable twoCurrent)
                 [0; 1; 0; 1] twoCurrent) = None.
Proof.
  assert (H : ∀ item, item ∈ uniqueTable twoCurrent → stale (C:=memory) item = false).
  { intros item Hin. apply list_elem_of_In in Hin. simpl in Hin.
    destruct Hin as [<-|[<-|[]]]; reflexivity. }
  split; [exact H|].
  destruct (current_records_are_left_alone (C:=memory) bottleneck false
              (uniqueTable twoCurrent) [0; 1; 0; 1] twoCurrent H)
    as (Hs & _ & Hr & _).
  split; [exact Hs|exact Hr].
Defined.

(** Two stale records of the turtle: after the reconcile phase the index
    still holds each under its outdated key. *)
Lemma reconcile_leaves_other_keys_witness :
  query (store (reconciled (C:=memory) bottleneck false (uniqueTable twoStale)
                  (sequential 2) twoStale)) "thing-by-unique" "v1#turtle"
  = Ok [turtleOld]
  ∧ held (C:=memory)
      (store (reconciled (C:=memory) bottleneck false (uniqueTable twoStale)
                (sequential 2) twoStale)) "v0#turtle".
Proof.
  destruct (reconcile_leaves_other_keys (C:=memory) bottleneck false
              (uniqueTable twoStale) (sequential 2) twoStale memory_putFrame)
    as [Hq Hh].
  split.
  - refine (eq_trans (Hq "v1#turtle"%string _) _); [|vm_compute; reflexivity].
    intros item Hin _ Heq. apply list_elem_of_In in Hin. simpl in Hin.
    destruct Hin as [<-|[<-|[]]]; vm_compute in Heq; discriminate Heq.
  - apply (Hh memory_putWrites). exists turtleOlder, []. vm_compute; reflexivity.
Defined.

(** One stale record: once its job has resolved, the index holds a record
    at the derived key. *)
Lemma reconciled_index_holds_stale_keys_witness :
  held (C:=memory)
    (store (reconciled (C:=memory) bottleneck false [turtleOld] [0; 0; 0] oneStale))
    "v2#turtle"
  ∧ findByUnique (C:=memory)
      (store (reconciled (C:=memory) bottleneck false [turtleOld] [0; 0; 0] oneStale))
      (decoded (C:=memory) turtleOld) ≠ Ok None.
Proof.
  apply (reconciled_index_holds_stale_keys (C:=memory) bottleneck [turtleOld]
           [0; 0; 0] oneStale 0 turtleOld memory_putFrame memory_putWrites);
    [reflexivity|reflexivity|vm_compute; reflexivity].
Defined.




Lemma turtleAndCrab_distinct :
  staleKeysDistinct (C:=memory) [turtleOld; crab].
Proof.
  intros [|[|i]] [|[|j]] a b Hi Hj _ _ Heq; simpl in *; simplify_eq; try done;
    vm_compute in Heq; discriminate Heq.
Qed.

(** Two stale records of different entities: every successful run, dry or
    real, under any schedule, reports two objects and two written
    records. *)
Lemma report_independent_of_schedule_witness :
  migrateAllRecordsToNewSchema 1 (sequential 2) (sequential 2) false None turtleAndCrab
  = Some (Ok (report 2 2), migrated turtleAndCrab (sequential 2) (sequential 2))
  ∧ ∀ limiter fuel schedule2 schedule3 dryRun stats s',
      migrateWith (C:=memory) limiter fuel schedule2 schedule3 dryRun None turtleAndCrab
      = Some (Ok stats, s') →
      stats = report 2 2.
Proof.
  assert (Hrun : migrateAllRecordsToNewSchema 1 (sequential 2) (sequential 2) false
                   None turtleAndCrab
                 = Some (Ok (report 2 2),
                         migrated turtleAndCrab (sequential 2) (sequential 2)))
    by (vm_compute; reflexivity).
  split; [exact Hrun|].
  destruct (report_independent_of_schedule (C:=memory) bottleneck 1 (sequential 2)
              (sequential 2) false None turtleAndCrab (report 2 2) _
              memory_putFrame Hrun) as (pages & Hscan & Hreport).
  assert (Hpages : pages = [[turtleOld; crab]]).
  { assert (E : Some (Ok pages) = Some (Ok [[turtleOld; crab]]))
      by (rewrite <- Hscan; vm_compute; reflexivity).
    by injection E. }
  subst pages.
  destruct (Hreport turtleAndCrab_distinct) as [_ Hsame].
  exact Hsame.
Defined.

(** The table of forty records, scanned in three pages, migrated under the
    sequential schedules: the run returns. *)
Lemma migration_completes_witness :
  ∃ out s',
    migrateWith (C:=memory) bottleneck 3 (sequential 40) (sequential 40) false None paged
    = Some (out, s').
Proof.
  apply (migration_completes (C:=memory) bottleneck 3 false None paged pagedAnswers);
    [simpl; lia|exact paged_scanTrace|simpl; lia].
Defined.

(** A table without records: one empty page, a report of zeros, and the
    store as it was. *)
Lemma empty_table_migrates_nothing_witness :
  migrateWith (C:=memory) bottleneck 1 [0; 1] [2] false None noRecords
  = Some (Ok (report 0 0), noRecords).
Proof.
  apply (empty_table_migrates_nothing (C:=memory) bottleneck 1 [0; 1] [2] false None
           noRecords [[]]); reflexivity.
Defined.


